(** * EZEN post editor: the pointer-gesture layout engine of [App.tsx]

    A shallow embedding of the interactive part of [src/App.tsx]: the
    [NewsPost] document, the React state cells of the [App] component, the
    three pointer handlers, the headline renderer and the export button.

    State.  The [useState] cells of [App] are the fields of one record,
    [AppState]; a handler is a function from the state of the latest render
    to the next state, with the list of what it does outside the state
    (pointer capture, clicks on the hidden file inputs, the rasterizer).
    React commits the updates of one event before the next event is
    handled, so handlers are composed by passing the state along.

    Numbers.  A JavaScript [number] is modelled as an exact rational ([Q]):
    the handlers only add, subtract, multiply, divide and compare, and exact
    arithmetic is the intended reading of those operations.  Rounding is not
    modelled, and neither are the values a quotient by zero produces in
    JavaScript; statements about the percentages assume a preview rectangle
    of positive width and height.

    Strings.  A JavaScript string is a sequence of UTF-16 code units,
    modelled as [list N]. *)

From Stdlib Require Import QArith Qabs Qminmax Lqa.
From Stdlib Require Import ZArith NArith Bool List Lia.
From Stdlib Require Import Ascii String.
Import ListNotations.

Local Open Scope Q_scope.

(** ** JavaScript strings *)

Definition jsstring : Type := list N.

(** The code units of an ASCII literal of the source. *)
Definition js (s : string) : jsstring :=
  List.map N_of_ascii (list_ascii_of_string s).

(** ** The data model (App.tsx, lines 6-25) *)

(** type PostFormat = '1:1' | '9:16' | '16:9' *)
Inductive PostFormat : Type :=
| Format_1_1
| Format_9_16
| Format_16_9.

(** type DragTarget = 'background' | 'circle' | 'headline' | null *)
Inductive Target : Type :=
| Background
| Circle
| Headline.

Definition DragTarget : Type := option Target.

Record NewsPost : Type := mkNewsPost {
  brandName : jsstring;
  headline : jsstring;
  mainImage : option jsstring;
  circleImage : option jsstring;
  highlightColor : jsstring;
  brandColor : jsstring;
  format : PostFormat;
  mainImageY : Q;
  circleImageY : Q;
  circleImageScale : Q;
  circleX : Q;
  circleY : Q;
  circleSize : Q;
  headlineSize : Q;
  headlineY : Q
}.

Definition PostFormat_eqb (a b : PostFormat) : bool :=
  match a, b with
  | Format_1_1, Format_1_1 => true
  | Format_9_16, Format_9_16 => true
  | Format_16_9, Format_16_9 => true
  | _, _ => false
  end.

(** The object spreads [{ ...prev, field: value }] of the source, one per
    field list that the source overwrites. *)

(** { ...prev, circleX: x, circleY: y } *)
Definition spread_circleXY (prev : NewsPost) (x y : Q) : NewsPost :=
  {| brandName := brandName prev; headline := headline prev;
     mainImage := mainImage prev; circleImage := circleImage prev;
     highlightColor := highlightColor prev; brandColor := brandColor prev;
     format := format prev; mainImageY := mainImageY prev;
     circleImageY := circleImageY prev;
     circleImageScale := circleImageScale prev;
     circleX := x; circleY := y;
     circleSize := circleSize prev; headlineSize := headlineSize prev;
     headlineY := headlineY prev |}.

(** { ...prev, mainImageY: v } *)
Definition spread_mainImageY (prev : NewsPost) (v : Q) : NewsPost :=
  {| brandName := brandName prev; headline := headline prev;
     mainImage := mainImage prev; circleImage := circleImage prev;
     highlightColor := highlightColor prev; brandColor := brandColor prev;
     format := format prev; mainImageY := v;
     circleImageY := circleImageY prev;
     circleImageScale := circleImageScale prev;
     circleX := circleX prev; circleY := circleY prev;
     circleSize := circleSize prev; headlineSize := headlineSize prev;
     headlineY := headlineY prev |}.

(** { ...prev, headlineY: v } *)
Definition spread_headlineY (prev : NewsPost) (v : Q) : NewsPost :=
  {| brandName := brandName prev; headline := headline prev;
     mainImage := mainImage prev; circleImage := circleImage prev;
     highlightColor := highlightColor prev; brandColor := brandColor prev;
     format := format prev; mainImageY := mainImageY prev;
     circleImageY := circleImageY prev;
     circleImageScale := circleImageScale prev;
     circleX := circleX prev; circleY := circleY prev;
     circleSize := circleSize prev; headlineSize := headlineSize prev;
     headlineY := v |}.

(** { ...post, circleSize: v } *)
Definition spread_circleSize (prev : NewsPost) (v : Q) : NewsPost :=
  {| brandName := brandName prev; headline := headline prev;
     mainImage := mainImage prev; circleImage := circleImage prev;
     highlightColor := highlightColor prev; brandColor := brandColor prev;
     format := format prev; mainImageY := mainImageY prev;
     circleImageY := circleImageY prev;
     circleImageScale := circleImageScale prev;
     circleX := circleX prev; circleY := circleY prev;
     circleSize := v; headlineSize := headlineSize prev;
     headlineY := headlineY prev |}.

(** The initial document of [useState<NewsPost>] (lines 56-72). *)
Definition initialPost : NewsPost :=
  {| brandName := js "EZEN NEWS";
     headline :=
       js "EZEN NEWS revelado: Novo gerador de posts {revoluciona} design digital";
     mainImage := Some (js "https://images.unsplash.com/photo-1485827404703-89b55fcc595e?auto=format&fit=crop&q=80&w=1080");
     circleImage := Some (js "https://images.unsplash.com/photo-1531297484001-80022131f5a1?auto=format&fit=crop&q=80&w=400");
     highlightColor := js "#00D1FF";
     brandColor := js "#FF0055";
     format := Format_1_1;
     mainImageY := 50;
     circleImageY := 50;
     circleImageScale := 1;
     circleX := 10;
     circleY := 10;
     circleSize := 30;
     headlineSize := 100;
     headlineY := 0 |}.

(** ** The React state of [App] (lines 74-78) *)

Record Point : Type := mkPoint { px : Q; py : Q }.

Record AppState : Type := mkAppState {
  post : NewsPost;
  isExporting : bool;
  dragTarget : DragTarget;
  dragStart : Point;
  isDragging : bool;
  isSaving : bool
}.

Definition initialState : AppState :=
  {| post := initialPost; isExporting := false; dragTarget := None;
     dragStart := {| px := 0; py := 0 |}; isDragging := false;
     isSaving := false |}.

Definition setPost (f : NewsPost -> NewsPost) (st : AppState) : AppState :=
  {| post := f (post st); isExporting := isExporting st;
     dragTarget := dragTarget st; dragStart := dragStart st;
     isDragging := isDragging st; isSaving := isSaving st |}.

Definition setIsExporting (b : bool) (st : AppState) : AppState :=
  {| post := post st; isExporting := b;
     dragTarget := dragTarget st; dragStart := dragStart st;
     isDragging := isDragging st; isSaving := isSaving st |}.

Definition setDragTarget (t : DragTarget) (st : AppState) : AppState :=
  {| post := post st; isExporting := isExporting st;
     dragTarget := t; dragStart := dragStart st;
     isDragging := isDragging st; isSaving := isSaving st |}.

Definition setDragStart (p : Point) (st : AppState) : AppState :=
  {| post := post st; isExporting := isExporting st;
     dragTarget := dragTarget st; dragStart := p;
     isDragging := isDragging st; isSaving := isSaving st |}.

Definition setIsDragging (b : bool) (st : AppState) : AppState :=
  {| post := post st; isExporting := isExporting st;
     dragTarget := dragTarget st; dragStart := dragStart st;
     isDragging := b; isSaving := isSaving st |}.

(** ** Events and effects *)

(** The fields of a React pointer event the handlers read. *)
Record PointerEvent : Type := mkPointerEvent {
  pointerId : N;
  clientX : Q;
  clientY : Q
}.

(** The result of [getBoundingClientRect()]. *)
Record DOMRect : Type := mkDOMRect {
  left : Q;
  top : Q;
  width : Q;
  height : Q;
  right : Q;
  bottom : Q
}.

(** What a handler does to the world outside the React state. *)
Inductive Effect : Type :=
| SetPointerCapture (id : N)
| ClickFileInput            (* fileInputRef.current?.click() *)
| ClickCircleInput          (* circleInputRef.current?.click() *)
| InvokeRasterizer          (* html2canvas(previewRef.current, ...) *)
| DownloadLink              (* link.click() on the PNG data URL *)
| Alert.                    (* alert("Erro ao exportar. ...") *)

(** A tap is a click on one of the two hidden file inputs. *)
Definition isTap (eff : Effect) : bool :=
  match eff with
  | ClickFileInput | ClickCircleInput => true
  | _ => false
  end.

(** [a > b] on numbers. *)
Definition Qgtb (a b : Q) : bool := negb (Qle_bool a b).

(** ** The pointer handlers (lines 102-147) *)

(** handlePointerDown *)
Definition handlePointerDown (e : PointerEvent) (target : DragTarget)
    (st : AppState) : AppState * list Effect :=
  (setIsDragging false
     (setDragStart {| px := clientX e; py := clientY e |}
        (setDragTarget target st)),
   [SetPointerCapture (pointerId e)]).

(** The updater passed to [setPost] in [handlePointerMove] (lines 120-137);
    [xPct] and [yPct] are the two percentages of lines 117-118. *)
Definition moveUpdater (target : DragTarget) (e : PointerEvent)
    (rect : DOMRect) (prev : NewsPost) : NewsPost :=
  let xPct := ((right rect - clientX e) / width rect) * 100 in
  let yPct := ((clientY e - top rect) / height rect) * 100 in
  match target with
  | Some Circle =>
      spread_circleXY prev
        (Qmax 0 (Qmin (100 - circleSize prev) (xPct - circleSize prev / 2)))
        (Qmax 0 (Qmin (100 - circleSize prev) (yPct - circleSize prev / 2)))
  | Some Background =>
      spread_mainImageY prev (Qmax 0 (Qmin 100 yPct))
  | Some Headline =>
      let fromBottom := bottom rect - clientY e in
      let offset :=
        fromBottom - (if PostFormat_eqb (format prev) Format_9_16
                      then 180 else 100) in
      spread_headlineY prev offset
  | None => prev
  end.

(** handlePointerMove; [preview] is [previewRef.current] with the rectangle
    it would report, [None] when the ref is null. *)
Definition handlePointerMove (e : PointerEvent) (preview : option DOMRect)
    (st : AppState) : AppState :=
  match dragTarget st, preview with
  | Some t, Some rect =>
      let dx := Qabs (clientX e - px (dragStart st)) in
      let dy := Qabs (clientY e - py (dragStart st)) in
      let st1 := if Qgtb dx 5 || Qgtb dy 5 then setIsDragging true st else st in
      setPost (moveUpdater (Some t) e rect) st1
  | _, _ => st
  end.

(** handlePointerUp *)
Definition handlePointerUp (e : PointerEvent) (target : DragTarget)
    (st : AppState) : AppState * list Effect :=
  let taps :=
    match isDragging st, target with
    | false, Some t =>
        (match t with Background => [ClickFileInput] | _ => [] end)
        ++ (match t with Circle => [ClickCircleInput] | _ => [] end)
    | _, _ => []
    end in
  (setIsDragging false (setDragTarget None st), taps).

(** ** The wiring of the handlers in the JSX (lines 344-351, 387-389, 417-419)

    The preview element listens to all three pointer events; the circle and
    the headline block listen to pointer-down and pointer-up and stop the
    propagation, so that only the innermost region's handler runs.  The
    preview's pointer-up handler passes the current [dragTarget]. *)

Inductive DomEvent : Type :=
| PointerDown (region : Target) (e : PointerEvent)
| PointerMove (e : PointerEvent) (preview : option DOMRect)
| PointerUp (region : Target) (e : PointerEvent).

Definition dispatch (ev : DomEvent) (st : AppState) : AppState * list Effect :=
  match ev with
  | PointerDown region e => handlePointerDown e (Some region) st
  | PointerMove e preview => (handlePointerMove e preview st, [])
  | PointerUp Background e => handlePointerUp e (dragTarget st) st
  | PointerUp Circle e => handlePointerUp e (Some Circle) st
  | PointerUp Headline e => handlePointerUp e (Some Headline) st
  end.

(** The events of a list handled in order, every handler seeing the state
    the previous one left, with the effects in the order they happen. *)
Fixpoint dispatchAll (evs : list DomEvent) (st : AppState)
    : AppState * list Effect :=
  match evs with
  | [] => (st, [])
  | ev :: evs' =>
      let '(st1, effs1) := dispatch ev st in
      let '(st2, effs2) := dispatchAll evs' st1 in
      (st2, effs1 ++ effs2)
  end.

(** The classifier's test of line 114 for an event against a start point. *)
Definition exceedsThreshold (start : Point) (e : PointerEvent) : bool :=
  Qgtb (Qabs (clientX e - px start)) 5 || Qgtb (Qabs (clientY e - py start)) 5.

(** The circle lies inside the preview: the invariant of the data model. *)
Definition circleInBounds (p : NewsPost) : Prop :=
  0 <= circleX p /\ circleX p + circleSize p <= 100 /\
  0 <= circleY p /\ circleY p + circleSize p <= 100.

(** The change handler of the circle-size range input (line 315), applied
    to the integer [parseInt(e.target.value)]. *)
Definition onCircleSizeChange (v : Z) (st : AppState) : AppState :=
  setPost (fun _ => spread_circleSize (post st) (inject_Z v)) st.

(** ** renderHeadline (lines 163-171)

    [text.split(/(\{.*?\})/)] follows RegExp.prototype[Symbol.split]: the
    pattern is tried at every position from left to right; where it matches,
    the text since the previous match and the capture (here the whole match)
    are pushed and the search resumes after the match; the text after the
    last match is pushed at the end. *)

Local Open Scope N_scope.

Definition LBRACE : N := 123.   (* '{' *)
Definition RBRACE : N := 125.   (* '}' *)

(** The code units the pattern [.] refuses: LF, CR, U+2028 and U+2029. *)
Definition isLineTerminator (c : N) : bool :=
  (c =? 10) || (c =? 13) || (c =? 8232) || (c =? 8233).

(** [.*?\}] at the head of [s]: the shortest run of non-terminators that is
    followed by ['}']; the result is the run and what follows the brace. *)
Fixpoint lazyDotsThenClose (s : jsstring) : option (jsstring * jsstring) :=
  match s with
  | [] => None
  | c :: s' =>
      if c =? RBRACE then Some ([], s')
      else if isLineTerminator c then None
      else match lazyDotsThenClose s' with
           | Some (run, rest) => Some (c :: run, rest)
           | None => None
           end
  end.

(** The pattern [(\{.*?\})] anchored at the head of [s]: the capture, when
    there is a match. *)
Definition matchHere (s : jsstring) : option jsstring :=
  match s with
  | c :: s' =>
      if c =? LBRACE then
        match lazyDotsThenClose s' with
        | Some (run, _) => Some (LBRACE :: run ++ [RBRACE])
        | None => None
        end
      else None
  | [] => None
  end.

(** The loop of the split: [pending] is the text between the end of the
    previous match and the current position, in reverse; [skip] counts the
    code units of the current match that are still to be stepped over (the
    specification's jump of the position to the end of the match). *)
Fixpoint splitLoop (skip : nat) (pending : jsstring) (s : jsstring)
    : list jsstring :=
  match s with
  | [] => [rev pending]
  | c :: s' =>
      match skip with
      | S k => splitLoop k pending s'
      | O =>
          match matchHere s with
          | Some m => rev pending :: m :: splitLoop (List.length m - 1) [] s'
          | None => splitLoop O (c :: pending) s'
          end
      end
  end.

(** text.split(/(\{.*?\})/) *)
Definition splitOnBraces (text : jsstring) : list jsstring :=
  splitLoop O [] text.

(** part.startsWith('{') *)
Definition startsWithLBrace (part : jsstring) : bool :=
  match part with
  | c :: _ => c =? LBRACE
  | [] => false
  end.

(** part.endsWith('}') *)
Definition endsWithRBrace (part : jsstring) : bool :=
  match rev part with
  | c :: _ => c =? RBRACE
  | [] => false
  end.

(** part.slice(1, -1) *)
Definition slice_1_m1 (part : jsstring) : jsstring :=
  removelast (tl part).

(** What [renderHeadline] returns for one part: the part itself, or a
    [span] in the highlight colour around the part without its braces. *)
Inductive Segment : Type :=
| Plain (text : jsstring)
| Highlighted (color : jsstring) (text : jsstring).

Definition renderPart (color : jsstring) (part : jsstring) : Segment :=
  if startsWithLBrace part && endsWithRBrace part
  then Highlighted color (slice_1_m1 part)
  else Plain part.

Definition renderHeadline (p : NewsPost) (text : jsstring) : list Segment :=
  List.map (renderPart (highlightColor p)) (splitOnBraces text).

(** The characters a segment shows. *)
Definition segmentText (s : Segment) : jsstring :=
  match s with
  | Plain t => t
  | Highlighted _ t => t
  end.

(** A headline whose braces form balanced pairs that do not nest: a
    brace-free text followed by any number of blocks, each a brace pair
    around a brace-free text and a brace-free text after it. *)
Definition braceFree (s : jsstring) : Prop :=
  ~ In LBRACE s /\ ~ In RBRACE s.

Definition oneLine (s : jsstring) : Prop :=
  forall c, In c s -> isLineTerminator c = false.

Fixpoint blocksText (blocks : list (jsstring * jsstring)) : jsstring :=
  match blocks with
  | [] => []
  | (inner, after) :: bs =>
      LBRACE :: inner ++ RBRACE :: after ++ blocksText bs
  end.

Definition balancedText (first : jsstring)
    (blocks : list (jsstring * jsstring)) : jsstring :=
  first ++ blocksText blocks.

Fixpoint blocksSegments (color : jsstring)
    (blocks : list (jsstring * jsstring)) : list Segment :=
  match blocks with
  | [] => []
  | (inner, after) :: bs =>
      Highlighted color inner :: Plain after :: blocksSegments color bs
  end.

Local Close Scope N_scope.


(** ** downloadPost (lines 173-191)

    [downloadPost] is an async function: its body runs up to the first
    [await] when the button is clicked and is resumed by the event loop each
    time the awaited promise settles.  An export in flight is the point
    where its body is suspended. *)

Inductive ExportPhase : Type :=
| AwaitFontsReady      (* await document.fonts.ready *)
| AwaitSettleDelay     (* await new Promise(r => setTimeout(r, 200)) *)
| AwaitCanvas.         (* await html2canvas(...): the rasterizer is running *)

(** The synchronous start of [downloadPost]: the guard of line 174, then
    [setIsExporting(true)] and the suspension at the first [await].
    [previewMounted] says whether [previewRef.current] is non-null. *)
Definition downloadPost (previewMounted : bool) (st : AppState)
    : AppState * option ExportPhase :=
  if negb previewMounted || isExporting st then (st, None)
  else (setIsExporting true st, Some AwaitFontsReady).

(** The resumption of a suspended [downloadPost]; [fulfilled] says whether
    the awaited promise was fulfilled or rejected.  A rejection runs the
    [catch] block, and every way out runs the [finally] block. *)
Definition resumeDownloadPost (phase : ExportPhase) (fulfilled : bool)
    (st : AppState) : AppState * option ExportPhase * list Effect :=
  if fulfilled then
    match phase with
    | AwaitFontsReady => (st, Some AwaitSettleDelay, [])
    | AwaitSettleDelay => (st, Some AwaitCanvas, [InvokeRasterizer])
    | AwaitCanvas => (setIsExporting false st, None, [DownloadLink])
    end
  else (setIsExporting false st, None, [Alert]).

(** The component with its exports in flight. *)
Record System : Type := mkSystem {
  app : AppState;
  exports : list ExportPhase
}.

Definition initialSystem : System :=
  {| app := initialState; exports := [] |}.

Inductive SystemEvent : Type :=
| Dom (ev : DomEvent)                       (* a pointer event on the preview *)
| ClickExport (previewMounted : bool)       (* onClick={downloadPost} *)
| Resume (i : nat) (fulfilled : bool).      (* the promise of export [i] settles *)

(** [l] with its [i]-th export replaced by [next], or removed. *)
Fixpoint putExport (i : nat) (next : option ExportPhase)
    (l : list ExportPhase) : list ExportPhase :=
  match l, i with
  | [], _ => []
  | _ :: l', O => match next with Some ph => ph :: l' | None => l' end
  | ph :: l', S j => ph :: putExport j next l'
  end.

Definition systemStep (ev : SystemEvent) (sys : System)
    : System * list Effect :=
  match ev with
  | Dom dev =>
      let '(st, effs) := dispatch dev (app sys) in
      ({| app := st; exports := exports sys |}, effs)
  | ClickExport mounted =>
      let '(st, started) := downloadPost mounted (app sys) in
      ({| app := st;
          exports := exports sys ++
                     match started with Some ph => [ph] | None => [] end |},
       [])
  | Resume i fulfilled =>
      match nth_error (exports sys) i with
      | Some ph =>
          let '(st, next, effs) := resumeDownloadPost ph fulfilled (app sys) in
          ({| app := st; exports := putExport i next (exports sys) |}, effs)
      | None => (sys, [])
      end
  end.

Fixpoint systemRun (evs : list SystemEvent) (sys : System)
    : System * list Effect :=
  match evs with
  | [] => (sys, [])
  | ev :: evs' =>
      let '(sys1, effs1) := systemStep ev sys in
      let '(sys2, effs2) := systemRun evs' sys1 in
      (sys2, effs1 ++ effs2)
  end.

(** The exports whose rasterizer call is running. *)
Definition rasterizing (l : list ExportPhase) : nat :=
  List.length
    (List.filter (fun ph => match ph with AwaitCanvas => true | _ => false end) l).

(** A whole gesture as the preview receives it: a pointer-down on a region,
    pointer-moves (each with what [previewRef.current] is at that time) and
    a pointer-up. *)
Definition gesture (region : Target) (down : PointerEvent)
    (moves : list (PointerEvent * option DOMRect))
    (upRegion : Target) (up : PointerEvent) : list DomEvent :=
  PointerDown region down
  :: List.map (fun m => PointerMove (fst m) (snd m)) moves
  ++ [PointerUp upRegion up].

(** A preview rectangle with an area, as a laid-out preview reports. *)
Definition laidOut (rect : DOMRect) : Prop :=
  0 < width rect /\ 0 < height rect.

(** ** Auxiliary notions of the statements *)

(** A move that the handler processes and that exceeds the threshold. *)
Definition dragsPast (start : Point) (m : PointerEvent * option DOMRect)
    : bool :=
  match snd m with
  | Some _ => exceedsThreshold start (fst m)
  | None => false
  end.

(** Either no export is in flight and the flag is down, or exactly one is
    and the flag is up. *)
Definition exportInvariant (sys : System) : Prop :=
  (isExporting (app sys) = false /\ exports sys = []) \/
  (isExporting (app sys) = true /\ exists ph, exports sys = [ph]).

(** The parts the split produces for a balanced headline: the text before
    the first brace pair, then each pair with its braces and the text that
    follows it. *)
Fixpoint blocksParts (current : jsstring)
    (blocks : list (jsstring * jsstring)) : list jsstring :=
  match blocks with
  | [] => [current]
  | (inner, after) :: bs =>
      current :: (LBRACE :: inner ++ [RBRACE]) :: blocksParts after bs
  end.

(** A block of a balanced headline whose pair stays on one line. *)
Definition wellFormedBlock (b : jsstring * jsstring) : Prop :=
  braceFree (fst b) /\ oneLine (fst b) /\ braceFree (snd b).

(** The headline without its braces. *)
Definition isBrace (c : N) : bool := N.eqb c LBRACE || N.eqb c RBRACE.

Definition stripBraces (text : jsstring) : jsstring :=
  List.filter (fun c => negb (isBrace c)) text.

(** ** Sample inputs *)

(** The gesture of the counterexample: the headline block is pressed at
    (100, 100) and the pointer moves one pixel to the right. *)
Definition jitterState : AppState :=
  setDragStart {| px := 100; py := 100 |}
    (setDragTarget (Some Headline) initialState).

Definition jitterEvent : PointerEvent :=
  {| pointerId := 1%N; clientX := 101; clientY := 100 |}.

Definition rect600 : DOMRect :=
  {| left := 0; top := 0; width := 600; height := 600;
     right := 600; bottom := 600 |}.

Definition circleDragState : AppState :=
  setDragStart {| px := 400; py := 100 |}
    (setDragTarget (Some Circle) initialState).

Definition backgroundDragState : AppState :=
  setDragStart {| px := 300; py := 300 |}
    (setDragTarget (Some Background) initialState).

Definition circleAtLeftState : AppState :=
  setPost (fun prev => spread_circleXY prev 60 10) initialState.

(** ** The form controls (lines 218, 263-332) and the image upload
    (lines 149-161) *)

(** { ...post, format: v } *)
Definition spread_format (prev : NewsPost) (v : PostFormat) : NewsPost :=
  {| brandName := brandName prev;
     headline := headline prev;
     mainImage := mainImage prev;
     circleImage := circleImage prev;
     highlightColor := highlightColor prev;
     brandColor := brandColor prev;
     format := v;
     mainImageY := mainImageY prev;
     circleImageY := circleImageY prev;
     circleImageScale := circleImageScale prev;
     circleX := circleX prev;
     circleY := circleY prev;
     circleSize := circleSize prev;
     headlineSize := headlineSize prev;
     headlineY := headlineY prev |}.

(** { ...post, brandName: v } *)
Definition spread_brandName (prev : NewsPost) (v : jsstring) : NewsPost :=
  {| brandName := v;
     headline := headline prev;
     mainImage := mainImage prev;
     circleImage := circleImage prev;
     highlightColor := highlightColor prev;
     brandColor := brandColor prev;
     format := format prev;
     mainImageY := mainImageY prev;
     circleImageY := circleImageY prev;
     circleImageScale := circleImageScale prev;
     circleX := circleX prev;
     circleY := circleY prev;
     circleSize := circleSize prev;
     headlineSize := headlineSize prev;
     headlineY := headlineY prev |}.

(** { ...post, highlightColor: v } *)
Definition spread_highlightColor (prev : NewsPost) (v : jsstring) : NewsPost :=
  {| brandName := brandName prev;
     headline := headline prev;
     mainImage := mainImage prev;
     circleImage := circleImage prev;
     highlightColor := v;
     brandColor := brandColor prev;
     format := format prev;
     mainImageY := mainImageY prev;
     circleImageY := circleImageY prev;
     circleImageScale := circleImageScale prev;
     circleX := circleX prev;
     circleY := circleY prev;
     circleSize := circleSize prev;
     headlineSize := headlineSize prev;
     headlineY := headlineY prev |}.

(** { ...post, brandColor: v } *)
Definition spread_brandColor (prev : NewsPost) (v : jsstring) : NewsPost :=
  {| brandName := brandName prev;
     headline := headline prev;
     mainImage := mainImage prev;
     circleImage := circleImage prev;
     highlightColor := highlightColor prev;
     brandColor := v;
     format := format prev;
     mainImageY := mainImageY prev;
     circleImageY := circleImageY prev;
     circleImageScale := circleImageScale prev;
     circleX := circleX prev;
     circleY := circleY prev;
     circleSize := circleSize prev;
     headlineSize := headlineSize prev;
     headlineY := headlineY prev |}.

(** { ...post, headline: v } *)
Definition spread_headline (prev : NewsPost) (v : jsstring) : NewsPost :=
  {| brandName := brandName prev;
     headline := v;
     mainImage := mainImage prev;
     circleImage := circleImage prev;
     highlightColor := highlightColor prev;
     brandColor := brandColor prev;
     format := format prev;
     mainImageY := mainImageY prev;
     circleImageY := circleImageY prev;
     circleImageScale := circleImageScale prev;
     circleX := circleX prev;
     circleY := circleY prev;
     circleSize := circleSize prev;
     headlineSize := headlineSize prev;
     headlineY := headlineY prev |}.

(** { ...post, headlineSize: v } *)
Definition spread_headlineSize (prev : NewsPost) (v : Q) : NewsPost :=
  {| brandName := brandName prev;
     headline := headline prev;
     mainImage := mainImage prev;
     circleImage := circleImage prev;
     highlightColor := highlightColor prev;
     brandColor := brandColor prev;
     format := format prev;
     mainImageY := mainImageY prev;
     circleImageY := circleImageY prev;
     circleImageScale := circleImageScale prev;
     circleX := circleX prev;
     circleY := circleY prev;
     circleSize := circleSize prev;
     headlineSize := v;
     headlineY := headlineY prev |}.

(** { ...post, circleImageScale: v } *)
Definition spread_circleImageScale (prev : NewsPost) (v : Q) : NewsPost :=
  {| brandName := brandName prev;
     headline := headline prev;
     mainImage := mainImage prev;
     circleImage := circleImage prev;
     highlightColor := highlightColor prev;
     brandColor := brandColor prev;
     format := format prev;
     mainImageY := mainImageY prev;
     circleImageY := circleImageY prev;
     circleImageScale := v;
     circleX := circleX prev;
     circleY := circleY prev;
     circleSize := circleSize prev;
     headlineSize := headlineSize prev;
     headlineY := headlineY prev |}.

(** { ...post, circleImageY: v } *)
Definition spread_circleImageY (prev : NewsPost) (v : Q) : NewsPost :=
  {| brandName := brandName prev;
     headline := headline prev;
     mainImage := mainImage prev;
     circleImage := circleImage prev;
     highlightColor := highlightColor prev;
     brandColor := brandColor prev;
     format := format prev;
     mainImageY := mainImageY prev;
     circleImageY := v;
     circleImageScale := circleImageScale prev;
     circleX := circleX prev;
     circleY := circleY prev;
     circleSize := circleSize prev;
     headlineSize := headlineSize prev;
     headlineY := headlineY prev |}.

(** { ...prev, mainImage: v } *)
Definition spread_mainImage (prev : NewsPost) (v : option jsstring) : NewsPost :=
  {| brandName := brandName prev;
     headline := headline prev;
     mainImage := v;
     circleImage := circleImage prev;
     highlightColor := highlightColor prev;
     brandColor := brandColor prev;
     format := format prev;
     mainImageY := mainImageY prev;
     circleImageY := circleImageY prev;
     circleImageScale := circleImageScale prev;
     circleX := circleX prev;
     circleY := circleY prev;
     circleSize := circleSize prev;
     headlineSize := headlineSize prev;
     headlineY := headlineY prev |}.

(** { ...prev, circleImage: v } *)
Definition spread_circleImage (prev : NewsPost) (v : option jsstring) : NewsPost :=
  {| brandName := brandName prev;
     headline := headline prev;
     mainImage := mainImage prev;
     circleImage := v;
     highlightColor := highlightColor prev;
     brandColor := brandColor prev;
     format := format prev;
     mainImageY := mainImageY prev;
     circleImageY := circleImageY prev;
     circleImageScale := circleImageScale prev;
     circleX := circleX prev;
     circleY := circleY prev;
     circleSize := circleSize prev;
     headlineSize := headlineSize prev;
     headlineY := headlineY prev |}.

(** The events of the component other than the export button: what the
    user does to the preview and to the controls, and the two asynchronous
    completions that write the document (a file read and the load of the
    saved document).  A control's event carries the value its handler
    computes from [e.target.value]: the text in upper case for the brand
    name, [parseInt] of it for the three integer sliders and [parseFloat]
    for the zoom slider. *)
Inductive ImageType : Type :=
| ImageMain          (* 'main' *)
| ImageCircle.       (* 'circle' *)

Inductive UiEvent : Type :=
| Pointer (ev : DomEvent)
| FormatClick (f : PostFormat)                        (* line 218 *)
| BrandNameInput (upper : jsstring)                   (* line 263 *)
| HighlightColorInput (v : jsstring)                  (* line 271 *)
| BrandColorInput (v : jsstring)                      (* line 275 *)
| HeadlineInput (v : jsstring)                        (* line 287 *)
| HeadlineSizeInput (v : Z)                           (* line 298 *)
| CircleSizeInput (v : Z)                             (* line 315 *)
| CircleImageScaleInput (v : Q)                       (* line 320 *)
| CircleImageYInput (v : Z)                           (* line 324 *)
| RemoveCircleClick                                   (* line 327 *)
| AddCircleClick                                      (* line 332 *)
| ReaderLoadEnd (type : ImageType) (result : option jsstring)
                                                      (* lines 153-158 *)
| SavedPostLoaded (savedPost : option NewsPost).      (* lines 86-88 *)

(** handleImageUpload: the read it starts, if a file was chosen; the
    reader's [onloadend] is [ReaderLoadEnd] with the same type. *)
Definition handleImageUpload {File : Type} (files : list File)
    (type : ImageType) : option (File * ImageType) :=
  match files with
  | file :: _ => Some (file, type)
  | [] => None
  end.

(** reader.onloadend: [reader.result] is the data URL, or null when the
    read failed. *)
Definition readerOnLoadEnd (type : ImageType) (result : option jsstring)
    (st : AppState) : AppState :=
  setPost (fun prev =>
             match type with
             | ImageMain => spread_mainImage prev result
             | ImageCircle => spread_circleImage prev result
             end) st.

(** The [then] of [idb.get(STATE_KEY)]: [if (savedPost) setPost(savedPost)]. *)
Definition onSavedPostLoaded (savedPost : option NewsPost) (st : AppState)
    : AppState :=
  match savedPost with
  | Some saved => setPost (fun _ => saved) st
  | None => st
  end.

Definition uiStep (ev : UiEvent) (st : AppState) : AppState * list Effect :=
  match ev with
  | Pointer dev => dispatch dev st
  | FormatClick f => (setPost (fun _ => spread_format (post st) f) st, [])
  | BrandNameInput upper =>
      (setPost (fun _ => spread_brandName (post st) upper) st, [])
  | HighlightColorInput v =>
      (setPost (fun _ => spread_highlightColor (post st) v) st, [])
  | BrandColorInput v =>
      (setPost (fun _ => spread_brandColor (post st) v) st, [])
  | HeadlineInput v =>
      (setPost (fun _ => spread_headline (post st) v) st, [])
  | HeadlineSizeInput v =>
      (setPost (fun _ => spread_headlineSize (post st) (inject_Z v)) st, [])
  | CircleSizeInput v => (onCircleSizeChange v st, [])
  | CircleImageScaleInput v =>
      (setPost (fun _ => spread_circleImageScale (post st) v) st, [])
  | CircleImageYInput v =>
      (setPost (fun _ => spread_circleImageY (post st) (inject_Z v)) st, [])
  | RemoveCircleClick =>
      (setPost (fun _ => spread_circleImage (post st) None) st, [])
  | AddCircleClick => (st, [ClickCircleInput])
  | ReaderLoadEnd type result => (readerOnLoadEnd type result st, [])
  | SavedPostLoaded savedPost => (onSavedPostLoaded savedPost st, [])
  end.

Fixpoint uiRun (evs : list UiEvent) (st : AppState)
    : AppState * list Effect :=
  match evs with
  | [] => (st, [])
  | ev :: evs' =>
      let '(st1, effs1) := uiStep ev st in
      let '(st2, effs2) := uiRun evs' st1 in
      (st2, effs1 ++ effs2)
  end.

(** The ranges the sliders and the mappers give the numbers of the
    document. *)
Definition rangesOk (p : NewsPost) : Prop :=
  0 <= mainImageY p <= 100 /\
  10 <= circleSize p <= 70 /\
  1 <= circleImageScale p <= 3 /\
  0 <= circleImageY p <= 100 /\
  40 <= headlineSize p <= 160 /\
  0 <= circleX p <= 90 /\
  0 <= circleY p <= 90.

(** An event as the browser delivers it: a slider's value lies between its
    [min] and [max], a pointer-move reads the rectangle of a laid-out
    preview, and the saved document, when there is one, is in range. *)
Definition eventInRange (ev : UiEvent) : Prop :=
  match ev with
  | Pointer (PointerMove _ (Some rect)) => laidOut rect
  | HeadlineSizeInput v => (40 <= v <= 160)%Z
  | CircleSizeInput v => (10 <= v <= 70)%Z
  | CircleImageScaleInput v => 1 <= v <= 3
  | CircleImageYInput v => (0 <= v <= 100)%Z
  | SavedPostLoaded (Some saved) => rangesOk saved
  | _ => True
  end.

(** The events that cannot take a circle that is in bounds out of bounds:
    all but a change of the circle size and the load of a saved document
    whose circle is out of bounds. *)
Definition keepsCircle (ev : UiEvent) : Prop :=
  match ev with
  | CircleSizeInput _ => False
  | SavedPostLoaded (Some saved) => circleInBounds saved
  | _ => True
  end.

(** The two ways an export ends, and the call of the rasterizer. *)
Definition isExportEnd (eff : Effect) : bool :=
  match eff with
  | DownloadLink | Alert => true
  | _ => false
  end.

Definition isRasterizerCall (eff : Effect) : bool :=
  match eff with
  | InvokeRasterizer => true
  | _ => false
  end.

(** ** Persistence (lines 27-53 and 85-100)

    Time is the clock of the event loop in milliseconds.  A timer set by
    [setTimeout] runs when the loop reaches its time, before anything that
    happens later; [idb.set] is taken to settle before the store is read or
    written again. *)

Definition STATE_KEY : jsstring := js "currentPost".

Definition jsstring_eqb (a b : jsstring) : bool :=
  if list_eq_dec N.eq_dec a b then true else false.

(** The object store [settings] of the database: the value put under each
    key. *)
Definition ObjectStore : Type := jsstring -> option NewsPost.

Definition emptyStore : ObjectStore := fun _ => None.

(** idb.get(key): [request.result], undefined for a key never put. *)
Definition idb_get (key : jsstring) (db : ObjectStore) : option NewsPost :=
  db key.

(** idb.set(key, val): [objectStore.put(val, key)]. *)
Definition idb_set (key : jsstring) (val : NewsPost) (db : ObjectStore)
    : ObjectStore :=
  fun k => if jsstring_eqb k key then Some val else db k.

(** The save effect of lines 92-100 and what it acts on: the timeout it
    holds (the time it is due and the [post] of the render that set it), the
    store, and the documents passed to [idb.set] so far, oldest first. *)
Record Persistence : Type := mkPersistence {
  saveTimer : option (N * NewsPost);
  db : ObjectStore;
  saved : list NewsPost
}.

(** The body of the timeout, run when it is due:
    [idb.set(STATE_KEY, post)]. *)
Definition runDueTimer (now : N) (ps : Persistence) : Persistence :=
  match saveTimer ps with
  | Some (due, snapshot) =>
      if (due <=? now)%N
      then {| saveTimer := None;
              db := idb_set STATE_KEY snapshot (db ps);
              saved := saved ps ++ [snapshot] |}
      else ps
  | None => ps
  end.

Inductive Tick : Type :=
| RenderPost (now : N) (p : NewsPost)   (* a render with a new [post] *)
| Idle (now : N).                       (* the loop reaches [now] *)

(** A render with a new [post] runs the cleanup of the previous effect,
    [clearTimeout(timeout)], and the effect again,
    [setTimeout(..., 1000)]. *)
Definition persistStep (ev : Tick) (ps : Persistence) : Persistence :=
  match ev with
  | RenderPost now p =>
      let ps1 := runDueTimer now ps in
      {| saveTimer := Some ((now + 1000)%N, p);
         db := db ps1; saved := saved ps1 |}
  | Idle now => runDueTimer now ps
  end.

Definition persistRun (evs : list Tick) (ps : Persistence) : Persistence :=
  List.fold_left (fun acc ev => persistStep ev acc) evs ps.

(** The renders of a burst: a first render at [t0], each further one
    [fst g] milliseconds after the one before. *)
Fixpoint burstTicks (t0 : N) (p0 : NewsPost) (burst : list (N * NewsPost))
    : list Tick :=
  match burst with
  | [] => [RenderPost t0 p0]
  | (gap, p) :: rest => RenderPost t0 p0 :: burstTicks (t0 + gap)%N p rest
  end.

Fixpoint burstEnd (t0 : N) (p0 : NewsPost) (burst : list (N * NewsPost))
    : N * NewsPost :=
  match burst with
  | [] => (t0, p0)
  | (gap, p) :: rest => burstEnd (t0 + gap)%N p rest
  end.

(** A start of the component: the initial state, then the [then] of
    [idb.get(STATE_KEY)] of lines 85-89. *)
Definition startWith (store : ObjectStore) : AppState :=
  onSavedPostLoaded (idb_get STATE_KEY store) initialState.

(** ** The service worker (src/unnamed/part_000)

    The worker is modelled over the browser's Cache and Fetch interfaces.
    What the browser decides is a parameter, [BrowserApi]: the requests and
    responses themselves, the URL a request carries, the request that
    [cache.addAll] makes from a string, the status of a response and what
    its [Vary] header says.  The operations on a cache follow the Service
    Worker specification: a request matches a stored entry when their URLs
    are equal up to the fragment and the [Vary] header of the stored
    response lets it; [cache.put] refuses a response of status 206 or with
    [Vary: *], replaces the entries its request matches and is not awaited
    by the worker, so that it takes effect at a later point;
    [cache.addAll] stores all its responses or none, and refuses a response
    that is not ok.

    Only GET requests with http or https URLs are modelled, and the cache
    [CACHE_NAME] is taken to be the only cache of the origin. *)

Class BrowserApi : Type := {
  Request : Type;
  Response : Type;
  (* request.url: the serialised URL of the request, fragment included *)
  requestUrl : Request -> jsstring;
  (* the request cache.addAll makes from an entry of its list: the entry
     parsed against the location of the worker *)
  newRequest : jsstring -> Request;
  (* response.status *)
  responseStatus : Response -> N;
  (* the Vary header of the response holds '*' *)
  varyHasStar : Response -> bool;
  (* for a query, the request of a stored entry and its response: every
     header the response's Vary names has the same value in both requests *)
  varyAgrees : Request -> Request -> Response -> bool
}.

Definition CACHE_NAME : jsstring := js "ezen-news-v1".

Definition ASSETS_TO_CACHE : list jsstring :=
  [js "/"; js "/index.html"; js "/index.tsx"; js "/App.tsx";
   js "/manifest.json"; js "https://cdn.tailwindcss.com";
   js "https://fonts.googleapis.com/css2?family=Inter:wght@400;700;800;900&display=swap"].

(** s.startsWith(prefix) and s.includes(needle) *)
Fixpoint jsStartsWith (prefix s : jsstring) : bool :=
  match prefix, s with
  | [], _ => true
  | a :: prefix', b :: s' => N.eqb a b && jsStartsWith prefix' s'
  | _ :: _, [] => false
  end.

Fixpoint jsIncludes (needle s : jsstring) : bool :=
  jsStartsWith needle s ||
  match s with
  | [] => false
  | _ :: s' => jsIncludes needle s'
  end.

(** A serialised URL without its fragment: what precedes the first ['#']. *)
Fixpoint stripFragment (url : jsstring) : jsstring :=
  match url with
  | [] => []
  | c :: rest => if N.eqb c 35 then [] else c :: stripFragment rest
  end.

(** The URL by which the cache compares requests. *)
Definition cacheKey `{BrowserApi} (q : Request) : jsstring :=
  stripFragment (requestUrl q).

(** "Request matches cached item" for a query and a stored entry. *)
Definition requestMatches `{BrowserApi} (query : Request)
    (entry : Request * Response) : bool :=
  jsstring_eqb (cacheKey query) (cacheKey (fst entry))
  && varyAgrees query (fst entry) (snd entry).

Definition Cache `{BrowserApi} : Type := list (Request * Response).

(** cache.match(request): the response of the first entry the request
    matches. *)
Fixpoint cacheMatch `{BrowserApi} (query : Request) (cache : Cache)
    : option Response :=
  match cache with
  | [] => None
  | entry :: rest =>
      if requestMatches query entry then Some (snd entry)
      else cacheMatch query rest
  end.

(** The effect of a [cache.put(request, response)] that is carried out:
    the entries the request matches are removed and the new entry is
    added. *)
Definition cachePut `{BrowserApi} (q : Request) (r : Response)
    (cache : Cache) : Cache :=
  List.filter (fun entry => negb (requestMatches q entry)) cache ++ [(q, r)].

(** [cache.put] rejects a response of status 206 and one with [Vary: *]. *)
Definition putRejects `{BrowserApi} (r : Response) : bool :=
  N.eqb (responseStatus r) 206 || varyHasStar r.

(** The condition of the fetch handler for caching a response on the fly. *)
Definition cachedOnTheFly (url : jsstring) : bool :=
  jsIncludes (js "esm.sh") url || jsIncludes (js "googlefonts") url.

(** The worker's cache and the calls of [cache.put] that the fetch handler
    has made and that have not taken effect yet. *)
Record Worker `{BrowserApi} : Type := mkWorker {
  cache : Cache;
  pendingPuts : list (Request * Response)
}.

(** The fetch handler: the response it answers with ([None] when the fetch
    fails), the worker after it and the requests it sent to the network.
    The call of [cache.put] is not awaited: a response it accepts is only
    noted as pending, one it rejects is dropped, and the handler answers
    with the fetched response in both cases. *)
Definition fetchHandler `{BrowserApi} (network : Request -> option Response)
    (q : Request) (w : Worker)
    : option Response * Worker * list Request :=
  match cacheMatch q (cache w) with
  | Some response => (Some response, w, [])
  | None =>
      match network q with
      | Some fetchResponse =>
          if cachedOnTheFly (requestUrl q) && negb (putRejects fetchResponse)
          then (Some fetchResponse,
                {| cache := cache w;
                   pendingPuts := pendingPuts w ++ [(q, fetchResponse)] |},
                [q])
          else (Some fetchResponse, w, [q])
      | None => (None, w, [q])
      end
  end.

(** [l] without its [i]-th element. *)
Fixpoint dropNth {A : Type} (i : nat) (l : list A) : list A :=
  match l, i with
  | [], _ => []
  | _ :: l', O => l'
  | x :: l', S j => x :: dropNth j l'
  end.

(** What happens to the worker: a fetch event, with the network of that
    moment, or the end of a pending [cache.put], which stores its response
    or fails (the body of the response could not be read). *)
Inductive WorkerEvent `{BrowserApi} : Type :=
| Fetch (network : Request -> option Response) (q : Request)
| PutSettles (i : nat) (stored : bool).

Definition workerStep `{BrowserApi} (ev : WorkerEvent) (w : Worker) : Worker :=
  match ev with
  | Fetch network q => snd (fst (fetchHandler network q w))
  | PutSettles i stored =>
      match nth_error (pendingPuts w) i with
      | Some (q, r) =>
          {| cache := if stored then cachePut q r (cache w) else cache w;
             pendingPuts := dropNth i (pendingPuts w) |}
      | None => w
      end
  end.

Definition workerRun `{BrowserApi} (evs : list WorkerEvent) (w : Worker)
    : Worker :=
  List.fold_left (fun acc ev => workerStep ev acc) evs w.

(** [cache.addAll] accepts a response that is ok (status 200 to 299), is
    not of status 206 and has no [Vary: *]. *)
Definition addAllAccepts `{BrowserApi} (r : Response) : bool :=
  N.leb 200 (responseStatus r) && N.leb (responseStatus r) 299
  && negb (putRejects r).

(** The fetches of [cache.addAll]: all the responses, when every fetch
    succeeds with a response that is accepted. *)
Fixpoint fetchAll `{BrowserApi} (network : Request -> option Response)
    (requests : list Request) : option (list (Request * Response)) :=
  match requests with
  | [] => Some []
  | q :: rest =>
      match network q with
      | Some r =>
          if addAllAccepts r then
            match fetchAll network rest with
            | Some entries => Some ((q, r) :: entries)
            | None => None
            end
          else None
      | None => None
      end
  end.

(** The batch of puts of [cache.addAll]: it fails, and stores nothing, when
    a request of the batch matches an entry the batch has added. *)
Fixpoint batchPut `{BrowserApi} (entries added : list (Request * Response))
    (c : Cache) : option Cache :=
  match entries with
  | [] => Some c
  | (q, r) :: rest =>
      match cacheMatch q added with
      | Some _ => None
      | None => batchPut rest (added ++ [(q, r)]) (cachePut q r c)
      end
  end.

(** The install handler: the cache after it, [None] when [cache.addAll]
    rejects and the installation fails. *)
Definition installHandler `{BrowserApi}
    (network : Request -> option Response) (c : Cache) : option Cache :=
  match fetchAll network (List.map newRequest ASSETS_TO_CACHE) with
  | Some entries => batchPut entries [] c
  | None => None
  end.

(** The assumptions of the statements about the cache: but for [Vary: *],
    no [Vary] header tells two requests apart; and a cache holds no
    response with [Vary: *], as [cache.put] and [cache.addAll] see to. *)
Definition plainVary `{BrowserApi} : Prop :=
  forall (q c : Request) (r : Response),
    varyHasStar r = false -> varyAgrees q c r = true.

Definition noStar `{BrowserApi} (entries : list (Request * Response))
    : Prop :=
  Forall (fun entry => varyHasStar (snd entry) = false) entries.

(** The state the statements are about: no [Vary: *] in the cache nor among
    the pending puts. *)
Definition workerOk `{BrowserApi} (w : Worker) : Prop :=
  noStar (cache w) /\ noStar (pendingPuts w).

(** No pending put is for a request with the key of [q]. *)
Definition noPendingFor `{BrowserApi} (q : Request)
    (pending : list (Request * Response)) : Prop :=
  Forall (fun entry => cacheKey (fst entry) <> cacheKey q) pending.

(** An entry the fetch handler stored on the fly during the events [evs]. *)
Definition fetchedOnTheFly `{BrowserApi} (evs : list WorkerEvent)
    (entry : Request * Response) : Prop :=
  cachedOnTheFly (requestUrl (fst entry)) = true /\
  putRejects (snd entry) = false /\
  exists network, In (Fetch network (fst entry)) evs /\
                  network (fst entry) = Some (snd entry).

(** ** The inline styles that place the regions (lines 358, 392-394, 421) *)

(** The headline block's [bottom] in pixels:
    [(post.format === '9:16' ? 140 : 80) + post.headlineY]. *)
Definition headlineBottomPx (p : NewsPost) : Q :=
  (if PostFormat_eqb (format p) Format_9_16 then 140 else 80) + headlineY p.

(** The circle's [right], [top] and [width], in percent of the preview. *)
Definition circleRightPct (p : NewsPost) : Q := circleX p.
Definition circleTopPct (p : NewsPost) : Q := circleY p.
Definition circleWidthPct (p : NewsPost) : Q := circleSize p.

(** The fields no pointer handler writes. *)
Definition sameContent (p q : NewsPost) : Prop :=
  brandName q = brandName p /\ headline q = headline p /\
  mainImage q = mainImage p /\ circleImage q = circleImage p /\
  highlightColor q = highlightColor p /\ brandColor q = brandColor p /\
  format q = format p /\ circleImageY q = circleImageY p /\
  circleImageScale q = circleImageScale p /\
  circleSize q = circleSize p /\ headlineSize q = headlineSize p.

(** The text a segment was made from: a highlighted segment stands for its
    text between braces. *)
Definition segmentSource (s : Segment) : jsstring :=
  match s with
  | Plain t => t
  | Highlighted _ t => LBRACE :: t ++ [RBRACE]
  end.

(** The last pointer-move of a list that the handler processes (the
    preview ref is set), with the rectangle it read. *)
Fixpoint lastHandled (moves : list (PointerEvent * option DOMRect))
    : option (PointerEvent * DOMRect) :=
  match moves with
  | [] => None
  | (e, preview) :: ms =>
      match lastHandled ms with
      | Some r => Some r
      | None =>
          match preview with
          | Some rect => Some (e, rect)
          | None => None
          end
      end
  end.

(** A sample browser: a request is its URL, a response its status, whether
    its [Vary] header holds ['*'] and its body; no [Vary] header other than
    ['*'] tells requests apart; an entry of [cache.addAll] that is a path is
    resolved against https://ezen.example. *)
#[local] Instance sampleBrowser : BrowserApi :=
  {| Request := jsstring;
     Response := N * bool * jsstring;
     requestUrl := fun q => q;
     newRequest := fun entry =>
       if jsStartsWith (js "/") entry
       then js "https://ezen.example" ++ entry else entry;
     responseStatus := fun r => fst (fst r);
     varyHasStar := fun r => snd (fst r);
     varyAgrees := fun _ _ r => negb (snd (fst r)) |}.

(** Sample networks: one that answers every request with a page naming its
    URL, one that answers with a partial response, and one that is down. *)
Definition echoNetwork : Request -> option Response :=
  fun url : jsstring => Some (200%N, false, js "response to " ++ url).


Definition noNetwork : Request -> option Response :=
  fun url : jsstring => None.

Definition emptyWorker : Worker := {| cache := []; pendingPuts := [] |}.

(** * Properties *)

(** ** Comparisons and clamping *)

Lemma Qgtb_true (a b : Q) : Qgtb a b = true <-> b < a.
Proof.
  unfold Qgtb. rewrite negb_true_iff.
  destruct (Qle_bool a b) eqn:E.
  - apply Qle_bool_iff in E. split; [discriminate | intro; lra].
  - split; [intros _ | reflexivity].
    apply Qnot_le_lt. intro H. apply Qle_bool_iff in H. congruence.
Qed.

Lemma Qgtb_false (a b : Q) : Qgtb a b = false <-> a <= b.
Proof.
  unfold Qgtb. rewrite negb_false_iff. apply Qle_bool_iff.
Qed.


Section Clamp.
Variables lo hi v : Q.

Lemma clamp_bounds : lo <= hi -> lo <= Qmax lo (Qmin hi v) <= hi.
Proof.
  intro Hle. split.
  - apply Q.le_max_l.
  - apply Q.max_lub; [exact Hle | apply Q.le_min_l].
Qed.

Lemma clamp_inside : lo <= v <= hi -> Qmax lo (Qmin hi v) == v.
Proof.
  intros [Hlo Hhi].
  rewrite (Q.min_r _ _ Hhi). apply Q.max_r. exact Hlo.
Qed.

End Clamp.

(** ** The pointer-move handler, unfolded for an active target *)

Lemma handlePointerMove_active (st : AppState) (e : PointerEvent)
    (rect : DOMRect) (t : Target) :
  dragTarget st = Some t ->
  handlePointerMove e (Some rect) st =
  setPost (moveUpdater (Some t) e rect)
    (if exceedsThreshold (dragStart st) e then setIsDragging true st else st).
Proof.
  intro Ht. unfold handlePointerMove, exceedsThreshold. rewrite Ht. reflexivity.
Qed.

Lemma handlePointerMove_post (st : AppState) (e : PointerEvent)
    (rect : DOMRect) (t : Target) :
  dragTarget st = Some t ->
  post (handlePointerMove e (Some rect) st) =
  moveUpdater (Some t) e rect (post st).
Proof.
  intro Ht. rewrite (handlePointerMove_active st e rect t Ht).
  destruct (exceedsThreshold (dragStart st) e); reflexivity.
Qed.

Lemma handlePointerMove_isDragging (st : AppState) (e : PointerEvent)
    (rect : DOMRect) (t : Target) :
  dragTarget st = Some t ->
  isDragging (handlePointerMove e (Some rect) st) =
  exceedsThreshold (dragStart st) e || isDragging st.
Proof.
  intro Ht. rewrite (handlePointerMove_active st e rect t Ht).
  destruct (exceedsThreshold (dragStart st) e); reflexivity.
Qed.

Lemma handlePointerMove_classifier (st : AppState) (e : PointerEvent)
    (preview : option DOMRect) :
  dragTarget (handlePointerMove e preview st) = dragTarget st /\
  dragStart (handlePointerMove e preview st) = dragStart st.
Proof.
  unfold handlePointerMove.
  destruct (dragTarget st) as [t|] eqn:Ht; [|now rewrite Ht].
  destruct preview as [rect|]; [|now rewrite Ht].
  destruct (Qgtb _ 5 || Qgtb _ 5); simpl; now rewrite Ht.
Qed.

(** ** C1: the document is updated on every move of an active target *)

(** C1, as stated, fails: a move of one pixel, below the threshold in both
    axes and not classified as a drag, changes the document (the headline
    offset goes from 0 to 400). *)
Lemma move_below_threshold_mutates :
  dragTarget jitterState = Some Headline /\
  Qabs (clientX jitterEvent - px (dragStart jitterState)) <= 5 /\
  Qabs (clientY jitterEvent - py (dragStart jitterState)) <= 5 /\
  isDragging (handlePointerMove jitterEvent (Some rect600) jitterState) = false /\
  headlineY (post jitterState) == 0 /\
  headlineY (post (handlePointerMove jitterEvent (Some rect600) jitterState))
    == 400 /\
  post (handlePointerMove jitterEvent (Some rect600) jitterState)
    <> post jitterState.
Proof.
  repeat split; vm_compute; congruence.
Qed.

(** C1 (amended): on every pointer-move received while a drag target is
    active, the document is replaced by the target's mapper applied to the
    event, whatever the displacement; the 5-pixel threshold decides the
    dragged flag only, which is set when the displacement exceeds 5 in
    either axis and is left as it was otherwise. *)
Theorem move_always_maps (st : AppState) (e : PointerEvent) (rect : DOMRect)
    (t : Target) :
  dragTarget st = Some t ->
  post (handlePointerMove e (Some rect) st)
    = moveUpdater (Some t) e rect (post st) /\
  isDragging (handlePointerMove e (Some rect) st)
    = (if Qgtb (Qabs (clientX e - px (dragStart st))) 5
          || Qgtb (Qabs (clientY e - py (dragStart st))) 5
       then true else isDragging st).
Proof.
  intro Ht. split.
  - exact (handlePointerMove_post st e rect t Ht).
  - rewrite (handlePointerMove_isDragging st e rect t Ht).
    unfold exceedsThreshold.
    destruct (Qgtb _ 5 || Qgtb _ 5); reflexivity.
Qed.

(** The one-pixel move of the pressed headline is mapped. *)
Lemma move_always_maps_witness :
  dragTarget jitterState = Some Headline /\
  post (handlePointerMove jitterEvent (Some rect600) jitterState)
    = moveUpdater (Some Headline) jitterEvent rect600 (post jitterState).
Proof.
  split; [reflexivity |].
  apply (move_always_maps jitterState jitterEvent rect600 Headline).
  reflexivity.
Defined.

(** ** C5: the threshold is strict *)

(** C5: the classifier compares with [>] against 5.  After a pointer-move
    on an active target the dragged flag is set exactly when the
    displacement from the start point exceeds 5 pixels in one of the axes or
    the flag was set before; so a displacement of at most 5 pixels in both
    axes, and of exactly 5 in each, leaves the flag as it was, and a
    displacement above 5 in either axis, and of 6 in either, sets it. *)
Theorem threshold_is_strict (st : AppState) (e : PointerEvent)
    (rect : DOMRect) (t : Target) :
  dragTarget st = Some t ->
  let dx := Qabs (clientX e - px (dragStart st)) in
  let dy := Qabs (clientY e - py (dragStart st)) in
  let st' := handlePointerMove e (Some rect) st in
  (isDragging st' = true <-> 5 < dx \/ 5 < dy \/ isDragging st = true) /\
  (dx <= 5 -> dy <= 5 -> isDragging st' = isDragging st) /\
  (5 < dx \/ 5 < dy -> isDragging st' = true) /\
  (dx == 5 -> dy == 5 -> isDragging st' = isDragging st) /\
  (dx == 6 \/ dy == 6 -> isDragging st' = true).
Proof.
  intros Ht dx dy st'. subst st'.
  rewrite (handlePointerMove_isDragging st e rect t Ht).
  unfold exceedsThreshold. fold dx dy.
  assert (Hstill : dx <= 5 -> dy <= 5 ->
                   Qgtb dx 5 || Qgtb dy 5 || isDragging st = isDragging st).
  { intros Hx Hy. apply Qgtb_false in Hx. apply Qgtb_false in Hy.
    rewrite Hx, Hy. reflexivity. }
  assert (Hpast : 5 < dx \/ 5 < dy ->
                  Qgtb dx 5 || Qgtb dy 5 || isDragging st = true).
  { intros [Hx | Hy].
    - apply Qgtb_true in Hx. rewrite Hx. reflexivity.
    - apply Qgtb_true in Hy. rewrite Hy. now rewrite orb_true_r. }
  split; [| split; [exact Hstill | split; [exact Hpast | split]]].
  - split.
    + intro H. apply orb_true_iff in H. destruct H as [H | H]; [| tauto].
      apply orb_true_iff in H.
      destruct H as [H | H]; apply Qgtb_true in H; tauto.
    + intros [Hx | [Hy | Hd]].
      * apply Hpast. now left.
      * apply Hpast. now right.
      * rewrite Hd. apply orb_true_r.
  - intros Hx Hy. apply Hstill; [rewrite Hx | rewrite Hy]; apply Qle_refl.
  - intros [Hx | Hy]; apply Hpast; [left; rewrite Hx | right; rewrite Hy];
      reflexivity.
Qed.

(** From a press at (100, 100): a move to (105, 95) is not a drag, moves to
    (100, 106) and to (100, 107) are. *)
Lemma threshold_is_strict_witness :
  dragTarget jitterState = Some Headline /\
  isDragging
    (handlePointerMove {| pointerId := 1%N; clientX := 105; clientY := 95 |}
       (Some rect600) jitterState) = false /\
  isDragging
    (handlePointerMove {| pointerId := 1%N; clientX := 100; clientY := 106 |}
       (Some rect600) jitterState) = true /\
  isDragging
    (handlePointerMove {| pointerId := 1%N; clientX := 100; clientY := 107 |}
       (Some rect600) jitterState) = true.
Proof.
  split; [reflexivity | split; [| split]].
  - refine (proj1 (proj2 (proj2 (proj2
              (threshold_is_strict jitterState
                 {| pointerId := 1%N; clientX := 105; clientY := 95 |}
                 rect600 Headline _)))) _ _); reflexivity.
  - refine (proj2 (proj2 (proj2 (proj2
              (threshold_is_strict jitterState
                 {| pointerId := 1%N; clientX := 100; clientY := 106 |}
                 rect600 Headline _)))) _);
      [reflexivity | right; reflexivity].
  - refine (proj1 (proj2 (proj2
              (threshold_is_strict jitterState
                 {| pointerId := 1%N; clientX := 100; clientY := 107 |}
                 rect600 Headline _))) _);
      [reflexivity | right; reflexivity].
Defined.

(** ** C4: a drag never ends in a tap *)

Lemma dispatchAll_app (evs1 evs2 : list DomEvent) (st : AppState) :
  dispatchAll (evs1 ++ evs2) st =
  let '(st1, effs1) := dispatchAll evs1 st in
  let '(st2, effs2) := dispatchAll evs2 st1 in
  (st2, effs1 ++ effs2).
Proof.
  revert st. induction evs1 as [|ev evs1 IH]; intro st; simpl.
  - destruct (dispatchAll evs2 st); reflexivity.
  - destruct (dispatch ev st) as [st1 effs1].
    rewrite IH.
    destruct (dispatchAll evs1 st1) as [st2 effs2].
    destruct (dispatchAll evs2 st2) as [st3 effs3].
    now rewrite app_assoc.
Qed.

(** Pointer-moves have no effect outside the state, keep the target and the
    start point, and leave the dragged flag set as soon as one of them went
    past the threshold. *)
Lemma moves_classify (moves : list (PointerEvent * option DOMRect))
    (st : AppState) (t : Target) :
  dragTarget st = Some t ->
  let res :=
    dispatchAll (List.map (fun m => PointerMove (fst m) (snd m)) moves) st in
  snd res = [] /\
  dragTarget (fst res) = Some t /\
  dragStart (fst res) = dragStart st /\
  isDragging (fst res) =
    existsb (dragsPast (dragStart st)) moves || isDragging st.
Proof.
  revert st. induction moves as [|[e preview] moves IH]; intros st Ht; simpl.
  - auto.
  - destruct (handlePointerMove_classifier st e preview) as [Ht1 Hs1].
    assert (Hd1 : isDragging (handlePointerMove e preview st) =
                  dragsPast (dragStart st) (e, preview) || isDragging st).
    { unfold dragsPast; simpl. destruct preview as [rect|].
      - exact (handlePointerMove_isDragging st e rect t Ht).
      - unfold handlePointerMove. rewrite Ht. reflexivity. }
    rewrite Ht in Ht1.
    specialize (IH (handlePointerMove e preview st) Ht1). simpl in IH.
    destruct (dispatchAll _ (handlePointerMove e preview st)) as [st2 effs2].
    simpl in *. destruct IH as (He & Ht2 & Hs2 & Hd2).
    repeat split; try assumption.
    + congruence.
    + rewrite Hd2, Hs1, Hd1. now rewrite orb_assoc, (orb_comm (existsb _ _)).
Qed.

Lemma handlePointerUp_resets (e : PointerEvent) (target : DragTarget)
    (st : AppState) :
  dragTarget (fst (handlePointerUp e target st)) = None /\
  isDragging (fst (handlePointerUp e target st)) = false.
Proof. split; reflexivity. Qed.

(** C4: in every pointer-down / pointer-moves / pointer-up sequence in
    which some move went past the 5-pixel threshold, no effect of the
    sequence is a tap (no file input is clicked), wherever the pointer ends;
    and every pointer-up, after a tap or a drag, leaves the classifier with
    no target and the dragged flag cleared. *)
Theorem drag_never_taps (st : AppState) (region upRegion : Target)
    (down up : PointerEvent) (moves : list (PointerEvent * option DOMRect)) :
  existsb (dragsPast {| px := clientX down; py := clientY down |}) moves
    = true ->
  (let res := dispatchAll (gesture region down moves upRegion up) st in
   existsb isTap (snd res) = false /\
   dragTarget (fst res) = None /\
   isDragging (fst res) = false) /\
  (forall (st' : AppState) (e : PointerEvent) (target : DragTarget),
     dragTarget (fst (handlePointerUp e target st')) = None /\
     isDragging (fst (handlePointerUp e target st')) = false).
Proof.
  intro Hdrag. split; [| intros; apply handlePointerUp_resets].
  unfold gesture. cbn [dispatchAll dispatch].
  unfold handlePointerDown.
  set (st0 := setIsDragging false _).
  rewrite dispatchAll_app.
  destruct (moves_classify moves st0 region eq_refl) as (He & Ht & Hs & Hd).
  destruct (dispatchAll (List.map _ moves) st0) as [st1 effs1].
  simpl in He, Ht, Hs, Hd. subst effs1.
  change (dragStart st0) with {| px := clientX down; py := clientY down |} in Hd.
  rewrite Hdrag in Hd. simpl in Hd.
  assert (Hup : forall target,
             dispatchAll [PointerUp upRegion up] st1 =
             (fst (handlePointerUp up target st1), [])).
  { intro target. simpl.
    assert (Hany : forall tg, handlePointerUp up tg st1 =
                              (fst (handlePointerUp up target st1), [])).
    { intro tg. unfold handlePointerUp. rewrite Hd. reflexivity. }
    destruct upRegion; rewrite Hany; reflexivity. }
  rewrite (Hup None). simpl. auto.
Qed.

(** A press on the circle, a move of 40 pixels, a move back to the start
    and a release at the start: no tap. *)
Lemma drag_never_taps_witness :
  let down := {| pointerId := 1%N; clientX := 100; clientY := 100 |} in
  let moves :=
    [({| pointerId := 1%N; clientX := 140; clientY := 100 |}, Some rect600);
     ({| pointerId := 1%N; clientX := 100; clientY := 100 |}, Some rect600)] in
  existsb (dragsPast {| px := clientX down; py := clientY down |}) moves
    = true /\
  existsb isTap
    (snd (dispatchAll (gesture Circle down moves Circle down) initialState))
    = false.
Proof.
  intros down moves. split; [reflexivity |].
  apply (drag_never_taps initialState Circle Circle down down moves).
  reflexivity.
Defined.

(** X3: a gesture whose moves all stay within the threshold ends in a tap on
    the pressed region: the file input is clicked for the background, the
    circle input for the circle, and nothing for the headline. *)
Lemma tap_clicks_input (st : AppState) (region : Target)
    (down up : PointerEvent) (moves : list (PointerEvent * option DOMRect)) :
  existsb (dragsPast {| px := clientX down; py := clientY down |}) moves
    = false ->
  snd (dispatchAll (gesture region down moves region up) st)
  = SetPointerCapture (pointerId down)
    :: match region with
       | Background => [ClickFileInput]
       | Circle => [ClickCircleInput]
       | Headline => []
       end.
Proof.
  intro Hstill. unfold gesture. cbn [dispatchAll dispatch].
  unfold handlePointerDown.
  set (st0 := setIsDragging false _).
  rewrite dispatchAll_app.
  destruct (moves_classify moves st0 region eq_refl) as (He & Ht & Hs & Hd).
  destruct (dispatchAll (List.map _ moves) st0) as [st1 effs1].
  simpl in He, Ht, Hs, Hd. subst effs1.
  change (dragStart st0) with {| px := clientX down; py := clientY down |} in Hd.
  rewrite Hstill in Hd. simpl in Hd.
  destruct region; simpl; unfold handlePointerUp; rewrite Hd, ?Ht; reflexivity.
Qed.

(** A press on the circle and a release after a jitter of 3 and 2 pixels. *)
Lemma tap_clicks_input_witness :
  snd (dispatchAll
         (gesture Circle {| pointerId := 1%N; clientX := 100; clientY := 100 |}
            [({| pointerId := 1%N; clientX := 103; clientY := 98 |},
              Some rect600)]
            Circle {| pointerId := 1%N; clientX := 103; clientY := 98 |})
         initialState)
  = [SetPointerCapture 1%N; ClickCircleInput].
Proof.
  apply (tap_clicks_input initialState Circle
           {| pointerId := 1%N; clientX := 100; clientY := 100 |}
           {| pointerId := 1%N; clientX := 103; clientY := 98 |}
           [({| pointerId := 1%N; clientX := 103; clientY := 98 |},
             Some rect600)]).
  reflexivity.
Defined.

(** ** C2, C6: the circle mapper *)

Lemma circle_update (e : PointerEvent) (rect : DOMRect) (prev : NewsPost) :
  moveUpdater (Some Circle) e rect prev =
  spread_circleXY prev
    (Qmax 0 (Qmin (100 - circleSize prev)
               ((right rect - clientX e) / width rect * 100
                - circleSize prev / 2)))
    (Qmax 0 (Qmin (100 - circleSize prev)
               ((clientY e - top rect) / height rect * 100
                - circleSize prev / 2))).
Proof. reflexivity. Qed.

(** C2: for every pointer position, inside the preview rectangle or far
    outside it, and every document with [circleSize] in [10, 70], a circle
    drag update leaves [0 <= circleX <= 100 - circleSize] and
    [0 <= circleY <= 100 - circleSize], hence [circleX + circleSize <= 100]
    and [circleY + circleSize <= 100]. *)
Theorem circle_drag_clamped (st : AppState) (e : PointerEvent)
    (rect : DOMRect) :
  dragTarget st = Some Circle ->
  laidOut rect ->
  10 <= circleSize (post st) <= 70 ->
  let p := post (handlePointerMove e (Some rect) st) in
  (0 <= circleX p <= 100 - circleSize p) /\
  (0 <= circleY p <= 100 - circleSize p) /\
  circleX p + circleSize p <= 100 /\
  circleY p + circleSize p <= 100.
Proof.
  intros Ht _ [Hlo Hhi] p. subst p.
  rewrite (handlePointerMove_post st e rect Circle Ht), circle_update.
  cbn [circleX circleY circleSize spread_circleXY].
  set (s := circleSize (post st)) in *.
  assert (Hs : 0 <= 100 - s) by lra.
  pose proof (clamp_bounds 0 (100 - s)
                ((right rect - clientX e) / width rect * 100 - s / 2) Hs) as Hx.
  pose proof (clamp_bounds 0 (100 - s)
                ((clientY e - top rect) / height rect * 100 - s / 2) Hs) as Hy.
  repeat split; try tauto; lra.
Qed.

(** A pointer far outside the preview, to the left and below. *)
Lemma circle_drag_clamped_witness :
  let p := post (handlePointerMove
                   {| pointerId := 1%N; clientX := -5000; clientY := 9000 |}
                   (Some rect600) circleDragState) in
  circleX p + circleSize p <= 100 /\ circleY p + circleSize p <= 100.
Proof.
  intro p.
  refine ((fun H => conj (proj1 (proj2 (proj2 H))) (proj2 (proj2 (proj2 H))))
            (circle_drag_clamped circleDragState
               {| pointerId := 1%N; clientX := -5000; clientY := 9000 |}
               rect600 _ _ _)).
  - reflexivity.
  - split; reflexivity.
  - split; vm_compute; discriminate.
Defined.

(** C6: with the preview rectangle (0, 0, 600, 600) and a document whose
    [circleSize] is 30, a circle drag at (450, 300) gives [circleX = 10] and
    [circleY = 35]; the update follows the mapping measured from the right
    edge and anchored at the centre,
    [circleX = clamp ((right - x) / width * 100 - circleSize / 2)] and
    [circleY = clamp ((y - top) / height * 100 - circleSize / 2)], both
    clamped to [0, 100 - circleSize]. *)
Theorem circle_drag_example (st : AppState) :
  dragTarget st = Some Circle ->
  circleSize (post st) == 30 ->
  let e := {| pointerId := 1%N; clientX := 450; clientY := 300 |} in
  let p := post (handlePointerMove e (Some rect600) st) in
  let s := circleSize (post st) in
  let xPct := (right rect600 - clientX e) / width rect600 * 100 in
  let yPct := (clientY e - top rect600) / height rect600 * 100 in
  circleX p == 10 /\ circleY p == 35 /\
  circleX p = Qmax 0 (Qmin (100 - s) (xPct - s / 2)) /\
  circleY p = Qmax 0 (Qmin (100 - s) (yPct - s / 2)).
Proof.
  intros Ht Hs e p s xPct yPct. subst p.
  rewrite (handlePointerMove_post st e rect600 Circle Ht), circle_update.
  cbn [circleX circleY spread_circleXY]. fold s xPct yPct.
  repeat split; try reflexivity.
  all: rewrite clamp_inside; subst xPct yPct s e; unfold rect600; simpl.
  all: rewrite Hs; try reflexivity; split; vm_compute; discriminate.
Qed.

(** The example on the initial document, whose [circleSize] is 30. *)
Lemma circle_drag_example_witness :
  circleSize (post circleDragState) == 30 /\
  circleX (post (handlePointerMove
                   {| pointerId := 1%N; clientX := 450; clientY := 300 |}
                   (Some rect600) circleDragState)) == 10 /\
  circleY (post (handlePointerMove
                   {| pointerId := 1%N; clientX := 450; clientY := 300 |}
                   (Some rect600) circleDragState)) == 35.
Proof.
  split; [reflexivity |].
  refine ((fun H => conj (proj1 H) (proj1 (proj2 H)))
            (circle_drag_example circleDragState _ _));
    reflexivity.
Defined.

(** ** C8: the headline mapper *)

(** C8: on every headline drag, [headlineY] becomes
    [(rect.bottom - pointerY) - baseline], with baseline 180 for the
    portrait format (9:16) and 100 for the other two, whatever the value:
    nothing clamps it. *)
Theorem headline_drag_offset (st : AppState) (e : PointerEvent)
    (rect : DOMRect) :
  dragTarget st = Some Headline ->
  headlineY (post (handlePointerMove e (Some rect) st))
    = (bottom rect - clientY e)
      - match format (post st) with
        | Format_9_16 => 180
        | Format_1_1 | Format_16_9 => 100
        end.
Proof.
  intro Ht. rewrite (handlePointerMove_post st e rect Headline Ht).
  unfold moveUpdater. cbn [headlineY spread_headlineY].
  destruct (format (post st)); reflexivity.
Qed.

(** A pointer far below the preview gives a large negative offset. *)
Lemma headline_drag_offset_witness :
  headlineY (post (handlePointerMove
                     {| pointerId := 1%N; clientX := 100; clientY := 7000 |}
                     (Some rect600) jitterState))
    = (600 - 7000) - 100.
Proof.
  apply (headline_drag_offset jitterState
           {| pointerId := 1%N; clientX := 100; clientY := 7000 |} rect600).
  reflexivity.
Defined.

(** ** C9: the background mapper *)

(** C9: on every background drag, [mainImageY] becomes
    [clamp ((pointerY - rect.top) / rect.height * 100, 0, 100)], a value of
    [0, 100], and every other field of the document keeps its value. *)
Theorem background_drag_frame (st : AppState) (e : PointerEvent)
    (rect : DOMRect) :
  dragTarget st = Some Background ->
  laidOut rect ->
  let prev := post st in
  let p := post (handlePointerMove e (Some rect) st) in
  mainImageY p
    = Qmax 0 (Qmin 100 ((clientY e - top rect) / height rect * 100)) /\
  0 <= mainImageY p <= 100 /\
  brandName p = brandName prev /\ headline p = headline prev /\
  mainImage p = mainImage prev /\ circleImage p = circleImage prev /\
  highlightColor p = highlightColor prev /\ brandColor p = brandColor prev /\
  format p = format prev /\ circleImageY p = circleImageY prev /\
  circleImageScale p = circleImageScale prev /\
  circleX p = circleX prev /\ circleY p = circleY prev /\
  circleSize p = circleSize prev /\ headlineSize p = headlineSize prev /\
  headlineY p = headlineY prev.
Proof.
  intros Ht _ prev p. subst p prev.
  rewrite (handlePointerMove_post st e rect Background Ht).
  unfold moveUpdater. cbn.
  repeat split; try reflexivity; apply clamp_bounds; lra.
Qed.

(** A pointer far above the preview. *)
Lemma background_drag_frame_witness :
  0 <= mainImageY
         (post (handlePointerMove
                  {| pointerId := 1%N; clientX := 300; clientY := -4000 |}
                  (Some rect600) backgroundDragState)) <= 100.
Proof.
  refine ((fun H => proj1 (proj2 H))
            (background_drag_frame backgroundDragState
               {| pointerId := 1%N; clientX := 300; clientY := -4000 |}
               rect600 _ _)).
  - reflexivity.
  - split; reflexivity.
Defined.

(** ** C10: the size control does not move the circle *)

Lemma circle_update_in_bounds (e : PointerEvent) (rect : DOMRect)
    (prev : NewsPost) :
  circleSize prev <= 100 ->
  circleInBounds (moveUpdater (Some Circle) e rect prev).
Proof.
  intro Hs. rewrite circle_update. unfold circleInBounds.
  cbn [circleX circleY circleSize spread_circleXY].
  set (s := circleSize prev) in *.
  assert (Hs' : 0 <= 100 - s) by lra.
  pose proof (clamp_bounds 0 (100 - s)
                ((right rect - clientX e) / width rect * 100 - s / 2) Hs').
  pose proof (clamp_bounds 0 (100 - s)
                ((clientY e - top rect) / height rect * 100 - s / 2) Hs').
  repeat split; try tauto; lra.
Qed.

(** A pointer-down on a region followed by one pointer-move. *)
Lemma down_move_post (st : AppState) (t : Target) (down e : PointerEvent)
    (rect : DOMRect) :
  post (fst (dispatchAll [PointerDown t down; PointerMove e (Some rect)] st))
  = moveUpdater (Some t) e rect (post st).
Proof.
  cbn [dispatchAll dispatch handlePointerDown fst].
  set (st0 := setIsDragging false _).
  rewrite (handlePointerMove_post st0 e rect t eq_refl). reflexivity.
Qed.

(** C10: a change of the circle-size control, whatever the document and
    the new size, replaces [circleSize] and keeps [circleX], [circleY] and
    every other field; so, when [circleX + newSize > 100] (or
    [circleY + newSize > 100]), the document it produces has the circle out
    of bounds; the next circle drag over a laid-out preview puts the circle
    back in bounds, for every size up to 100 and so for every value of the
    slider, while a drag of the background or of the headline leaves it out
    of bounds. *)
Theorem circle_size_change_frame (st : AppState) (v : Z)
    (down e : PointerEvent) (rect : DOMRect) :
  let prev := post st in
  let st1 := onCircleSizeChange v st in
  let p := post st1 in
  (circleSize p = inject_Z v /\
   circleX p = circleX prev /\ circleY p = circleY prev /\
   brandName p = brandName prev /\ headline p = headline prev /\
   mainImage p = mainImage prev /\ circleImage p = circleImage prev /\
   highlightColor p = highlightColor prev /\ brandColor p = brandColor prev /\
   format p = format prev /\ mainImageY p = mainImageY prev /\
   circleImageY p = circleImageY prev /\
   circleImageScale p = circleImageScale prev /\
   headlineSize p = headlineSize prev /\ headlineY p = headlineY prev) /\
  (100 < circleX prev + inject_Z v \/ 100 < circleY prev + inject_Z v ->
   ~ circleInBounds p) /\
  ((v <= 100)%Z -> laidOut rect ->
   circleInBounds
     (post (fst (dispatchAll
                   [PointerDown Circle down; PointerMove e (Some rect)] st1)))) /\
  (100 < circleX prev + inject_Z v \/ 100 < circleY prev + inject_Z v ->
   forall t : Target,
     t <> Circle ->
     ~ circleInBounds
         (post (fst (dispatchAll
                       [PointerDown t down; PointerMove e (Some rect)] st1)))).
Proof.
  intros prev st1 p.
  assert (Hp : p = spread_circleSize prev (inject_Z v)) by reflexivity.
  split; [| split; [| split]].
  - rewrite Hp. repeat split.
  - intro Hout. rewrite Hp. unfold circleInBounds. cbn. lra.
  - intros Hhi _. rewrite down_move_post. apply circle_update_in_bounds.
    fold p. rewrite Hp. cbn [circleSize spread_circleSize].
    rewrite Zle_Qle in Hhi. exact Hhi.
  - intros Hout t Ht. rewrite down_move_post. fold p.
    destruct t; [| contradiction |]; rewrite Hp;
      unfold moveUpdater, circleInBounds; cbn; lra.
Qed.

(** The circle at [circleX = 60] and the size raised from 30 to 70; and a
    change of the size that keeps the circle in bounds, from 30 to 20. *)
Lemma circle_size_change_frame_witness :
  100 < circleX (post circleAtLeftState) + inject_Z 70 /\
  ~ circleInBounds (post (onCircleSizeChange 70 circleAtLeftState)) /\
  circleInBounds
    (post (fst (dispatchAll
                  [PointerDown Circle
                     {| pointerId := 1%N; clientX := 200; clientY := 200 |};
                   PointerMove
                     {| pointerId := 1%N; clientX := 150; clientY := 300 |}
                     (Some rect600)]
                  (onCircleSizeChange 70 circleAtLeftState)))) /\
  circleSize (post (onCircleSizeChange 20 initialState)) = inject_Z 20.
Proof.
  split; [reflexivity |].
  pose proof (circle_size_change_frame circleAtLeftState 70
                {| pointerId := 1%N; clientX := 200; clientY := 200 |}
                {| pointerId := 1%N; clientX := 150; clientY := 300 |}
                rect600) as H.
  cbv zeta in H. destruct H as (_ & Hout & Hin & _).
  split; [apply Hout; left; reflexivity |].
  split; [apply Hin; [discriminate | split; reflexivity] |].
  exact (proj1 (proj1 (circle_size_change_frame initialState 20
                         {| pointerId := 1%N; clientX := 0; clientY := 0 |}
                         {| pointerId := 1%N; clientX := 0; clientY := 0 |}
                         rect600))).
Defined.

(** ** C7: one export at a time *)

Lemma handlePointerMove_isExporting (e : PointerEvent)
    (preview : option DOMRect) (st : AppState) :
  isExporting (handlePointerMove e preview st) = isExporting st.
Proof.
  unfold handlePointerMove.
  destruct (dragTarget st); [| reflexivity].
  destruct preview; [| reflexivity].
  destruct (Qgtb _ 5 || Qgtb _ 5); reflexivity.
Qed.

Lemma dispatch_isExporting (ev : DomEvent) (st : AppState) :
  isExporting (fst (dispatch ev st)) = isExporting st.
Proof.
  destruct ev as [region e | e preview | region e]; simpl.
  - reflexivity.
  - apply handlePointerMove_isExporting.
  - destruct region; reflexivity.
Qed.

Lemma systemStep_invariant (ev : SystemEvent) (sys : System) :
  exportInvariant sys -> exportInvariant (fst (systemStep ev sys)).
Proof.
  intro Hinv. destruct ev as [dev | mounted | i fulfilled]; simpl.
  - pose proof (dispatch_isExporting dev (app sys)) as Hx.
    destruct (dispatch dev (app sys)) as [st effs]. simpl in *.
    unfold exportInvariant in *. simpl. rewrite Hx. exact Hinv.
  - unfold downloadPost.
    destruct Hinv as [[Hf Hnil] | [Ht Hone]].
    + rewrite Hf, orb_false_r. destruct mounted; simpl.
      * right. simpl. split; [reflexivity |].
        exists AwaitFontsReady. now rewrite Hnil.
      * left. simpl. now rewrite app_nil_r.
    + rewrite Ht, orb_true_r. simpl. right. simpl. now rewrite app_nil_r.
  - destruct Hinv as [[Hf Hnil] | [Ht [ph Hone]]].
    + rewrite Hnil. destruct i; simpl; left; auto.
    + rewrite Hone. destruct i as [| j]; simpl.
      * unfold resumeDownloadPost.
        destruct fulfilled; [destruct ph |]; simpl;
          unfold exportInvariant; simpl; rewrite ?Ht; eauto.
      * destruct j; simpl; right; eauto.
Qed.

Lemma systemRun_invariant (evs : list SystemEvent) (sys : System) :
  exportInvariant sys -> exportInvariant (fst (systemRun evs sys)).
Proof.
  revert sys. induction evs as [| ev evs IH]; intros sys Hinv; simpl.
  - exact Hinv.
  - pose proof (systemStep_invariant ev sys Hinv) as H1.
    destruct (systemStep ev sys) as [sys1 effs1]. simpl in H1.
    specialize (IH sys1 H1).
    destruct (systemRun evs sys1) as [sys2 effs2]. exact IH.
Qed.

Lemma initialSystem_invariant : exportInvariant initialSystem.
Proof. left. split; reflexivity. Qed.

(** C7: in every state the component reaches, at most one export is in
    flight, so at most one rasterizer call is running; and while
    [isExporting] is true an export request returns at its guard: it starts
    no export (nothing is queued), changes no state and has no effect, so it
    never reaches the rasterizer. *)
Theorem export_single_flight (evs : list SystemEvent) (mounted : bool) :
  let sys := fst (systemRun evs initialSystem) in
  (List.length (exports sys) <= 1)%nat /\
  (rasterizing (exports sys) <= 1)%nat /\
  (isExporting (app sys) = true ->
   downloadPost mounted (app sys) = (app sys, None) /\
   systemStep (ClickExport mounted) sys = (sys, [])).
Proof.
  intro sys.
  pose proof (systemRun_invariant evs initialSystem initialSystem_invariant)
    as Hinv.
  fold sys in Hinv.
  assert (Hlen : (List.length (exports sys) <= 1)%nat).
  { destruct Hinv as [[_ Hnil] | [_ [ph Hone]]].
    - rewrite Hnil. simpl. lia.
    - rewrite Hone. simpl. lia. }
  split; [exact Hlen | split].
  - unfold rasterizing.
    eapply Nat.le_trans; [apply filter_length_le | exact Hlen].
  - intro Ht.
    assert (Hd : downloadPost mounted (app sys) = (app sys, None)).
    { unfold downloadPost. rewrite Ht, orb_true_r. reflexivity. }
    split; [exact Hd |].
    simpl. rewrite Hd. rewrite app_nil_r. destruct sys; reflexivity.
Qed.

(** A second click while the rasterizer of the first export is running. *)
Lemma export_single_flight_witness :
  let sys :=
    fst (systemRun [ClickExport true; Resume 0 true; Resume 0 true]
           initialSystem) in
  exports sys = [AwaitCanvas] /\
  isExporting (app sys) = true /\
  systemStep (ClickExport true) sys = (sys, []).
Proof.
  intro sys. split; [reflexivity | split; [reflexivity |]].
  apply (export_single_flight
           [ClickExport true; Resume 0 true; Resume 0 true] true).
  reflexivity.
Defined.

(** ** C3: the headline segmentation *)

Local Open Scope N_scope.

Lemma lazyDotsThenClose_inner (inner rest : jsstring) :
  ~ In RBRACE inner -> oneLine inner ->
  lazyDotsThenClose (inner ++ RBRACE :: rest) = Some (inner, rest).
Proof.
  induction inner as [| c inner IH]; intros Hno Hline; simpl.
  - reflexivity.
  - assert (Hc : (c =? RBRACE) = false).
    { apply N.eqb_neq. intro Heq. apply Hno. left. now symmetry. }
    rewrite Hc, (Hline c (or_introl eq_refl)), IH.
    + reflexivity.
    + intro Hin. apply Hno. now right.
    + intros d Hd. apply Hline. now right.
Qed.

Lemma matchHere_block (inner rest : jsstring) :
  ~ In RBRACE inner -> oneLine inner ->
  matchHere (LBRACE :: inner ++ RBRACE :: rest)
  = Some (LBRACE :: inner ++ [RBRACE]).
Proof.
  intros Hno Hline. unfold matchHere. rewrite N.eqb_refl.
  now rewrite lazyDotsThenClose_inner.
Qed.

Lemma splitLoop_skip (m rest pending : jsstring) :
  splitLoop (List.length m) pending (m ++ rest)
  = match rest with
    | [] => [rev pending]
    | _ => splitLoop O pending rest
    end.
Proof.
  induction m as [| c m IH]; simpl.
  - destruct rest; reflexivity.
  - exact IH.
Qed.

Lemma splitLoop_skip_nil (pending rest : jsstring) :
  match rest with
  | [] => [rev pending]
  | _ => splitLoop O pending rest
  end = splitLoop O pending rest.
Proof. destruct rest; reflexivity. Qed.

Lemma splitLoop_plain (plain rest pending : jsstring) :
  ~ In LBRACE plain ->
  splitLoop O pending (plain ++ rest)
  = splitLoop O (rev plain ++ pending) rest.
Proof.
  revert pending. induction plain as [| c plain IH]; intros pending Hno; simpl.
  - reflexivity.
  - assert (Hc : (c =? LBRACE) = false).
    { apply N.eqb_neq. intro Heq. apply Hno. left. now symmetry. }
    rewrite Hc, IH.
    + now rewrite <- app_assoc.
    + intro Hin. apply Hno. now right.
Qed.

Lemma splitLoop_blocks (blocks : list (jsstring * jsstring))
    (pending : jsstring) :
  Forall wellFormedBlock blocks ->
  splitLoop O pending (blocksText blocks) = blocksParts (rev pending) blocks.
Proof.
  intro Hwf. revert pending.
  induction Hwf as [| [inner after] bs [[_ HnoR] [Hline [HnoL _]]] _ IH];
    intro pending.
  - reflexivity.
  - simpl in HnoR, Hline, HnoL.
    cbn [blocksText blocksParts splitLoop].
    rewrite (matchHere_block inner (after ++ blocksText bs) HnoR Hline).
    f_equal. f_equal.
    replace (List.length (LBRACE :: inner ++ [RBRACE]) - 1)%nat
      with (List.length (inner ++ [RBRACE]))
      by (simpl; rewrite Nat.sub_0_r; reflexivity).
    change (inner ++ RBRACE :: after ++ blocksText bs)
      with (inner ++ [RBRACE] ++ after ++ blocksText bs).
    rewrite app_assoc, splitLoop_skip, splitLoop_skip_nil.
    rewrite (splitLoop_plain after (blocksText bs) [] HnoL), app_nil_r, IH.
    now rewrite rev_involutive.
Qed.

Lemma splitOnBraces_balanced (first : jsstring)
    (blocks : list (jsstring * jsstring)) :
  braceFree first -> Forall wellFormedBlock blocks ->
  splitOnBraces (balancedText first blocks) = blocksParts first blocks.
Proof.
  intros [HnoL _] Hwf. unfold splitOnBraces, balancedText.
  rewrite (splitLoop_plain first (blocksText blocks) [] HnoL), app_nil_r.
  rewrite (splitLoop_blocks blocks (rev first) Hwf).
  now rewrite rev_involutive.
Qed.

Lemma renderPart_plain (color part : jsstring) :
  ~ In LBRACE part -> renderPart color part = Plain part.
Proof.
  intro Hno. unfold renderPart.
  destruct part as [| c part]; [reflexivity |]. simpl.
  assert (Hc : (c =? LBRACE) = false).
  { apply N.eqb_neq. intro Heq. apply Hno. left. now symmetry. }
  now rewrite Hc.
Qed.

Lemma renderPart_braced (color inner : jsstring) :
  renderPart color (LBRACE :: inner ++ [RBRACE]) = Highlighted color inner.
Proof.
  unfold renderPart, startsWithLBrace, endsWithRBrace, slice_1_m1.
  rewrite N.eqb_refl. simpl rev. rewrite rev_app_distr. simpl.
  now rewrite removelast_last.
Qed.

Lemma renderParts_blocks (color current : jsstring)
    (blocks : list (jsstring * jsstring)) :
  braceFree current -> Forall wellFormedBlock blocks ->
  List.map (renderPart color) (blocksParts current blocks)
  = Plain current :: blocksSegments color blocks.
Proof.
  intros Hcur Hwf. revert current Hcur.
  induction Hwf as [| [inner after] bs [_ [_ Hafter]] _ IH];
    intros current [HnoL _]; simpl.
  - now rewrite renderPart_plain.
  - rewrite (renderPart_plain color current HnoL).
    rewrite (renderPart_braced color inner).
    now rewrite (IH after Hafter).
Qed.

Lemma stripBraces_braceFree (s : jsstring) :
  braceFree s -> stripBraces s = s.
Proof.
  intros [HnoL HnoR]. unfold stripBraces.
  induction s as [| c s IH]; simpl; [reflexivity |].
  assert (Hc : isBrace c = false).
  { unfold isBrace. apply orb_false_iff. split; apply N.eqb_neq;
      intro Heq; [apply HnoL | apply HnoR]; left; now symmetry. }
  rewrite Hc. simpl. f_equal. apply IH; intro Hin.
  - apply HnoL. now right.
  - apply HnoR. now right.
Qed.

Lemma stripBraces_app (s1 s2 : jsstring) :
  stripBraces (s1 ++ s2) = stripBraces s1 ++ stripBraces s2.
Proof. apply filter_app. Qed.

Lemma stripBraces_blocks (color : jsstring)
    (blocks : list (jsstring * jsstring)) :
  Forall wellFormedBlock blocks ->
  List.concat (List.map segmentText (blocksSegments color blocks))
  = stripBraces (blocksText blocks).
Proof.
  induction 1 as [| [inner after] bs [Hinner [_ Hafter]] _ IH].
  - reflexivity.
  - simpl in Hinner, Hafter.
    cbn [blocksSegments blocksText List.map segmentText List.concat].
    rewrite IH.
    change (LBRACE :: inner ++ RBRACE :: after ++ blocksText bs)
      with ([LBRACE] ++ inner ++ [RBRACE] ++ after ++ blocksText bs).
    rewrite (stripBraces_app [LBRACE]), (stripBraces_app inner),
      (stripBraces_app [RBRACE]), (stripBraces_app after).
    rewrite (stripBraces_braceFree inner Hinner).
    rewrite (stripBraces_braceFree after Hafter).
    reflexivity.
Qed.

(** X1: the segmentation of a balanced headline whose highlighted pairs
    stay on one line: the braces are stripped, the text of each pair is highlighted,
    and the text around the pairs is kept as it is; read in order, the
    segments are the headline without its braces, so that no other character
    is lost or added. *)
Theorem renderHeadline_balanced (p : NewsPost) (first : jsstring)
    (blocks : list (jsstring * jsstring)) :
  braceFree first -> Forall wellFormedBlock blocks ->
  renderHeadline p (balancedText first blocks)
  = Plain first :: blocksSegments (highlightColor p) blocks /\
  List.concat
    (List.map segmentText (renderHeadline p (balancedText first blocks)))
  = stripBraces (balancedText first blocks).
Proof.
  intros Hfirst Hwf.
  assert (Hr : renderHeadline p (balancedText first blocks)
               = Plain first :: blocksSegments (highlightColor p) blocks).
  { unfold renderHeadline.
    rewrite (splitOnBraces_balanced first blocks Hfirst Hwf).
    exact (renderParts_blocks (highlightColor p) first blocks Hfirst Hwf). }
  split; [exact Hr |].
  rewrite Hr. unfold balancedText. rewrite stripBraces_app.
  rewrite (stripBraces_braceFree first Hfirst). simpl.
  now rewrite (stripBraces_blocks (highlightColor p) blocks Hwf).
Qed.

(** A headline with three pairs, two of them adjacent and one empty. *)
Lemma renderHeadline_balanced_witness :
  renderHeadline initialPost (js "a{b}{}c{d}")
  = [Plain (js "a"); Highlighted (js "#00D1FF") (js "b"); Plain [];
     Highlighted (js "#00D1FF") []; Plain (js "c");
     Highlighted (js "#00D1FF") (js "d"); Plain []] /\
  List.concat
    (List.map segmentText (renderHeadline initialPost (js "a{b}{}c{d}")))
  = js "abcd".
Proof.
  apply (renderHeadline_balanced initialPost (js "a")
           [(js "b", []); ([], js "c"); (js "d", [])]).
  - split; vm_compute; intuition discriminate.
  - repeat constructor; vm_compute; intuition (discriminate || subst; reflexivity).
Defined.

(** The segmentation of the default headline. *)
Lemma renderHeadline_default (p : NewsPost) :
  renderHeadline p
    (js "EZEN NEWS revelado: Novo gerador de posts {revoluciona} design digital")
  = [Plain (js "EZEN NEWS revelado: Novo gerador de posts ");
     Highlighted (highlightColor p) (js "revoluciona");
     Plain (js " design digital")].
Proof. reflexivity. Qed.

(** C3 at a headline with a line break inside its brace pair,
    [a{b<LF>c}d]: the pattern's [.] refuses the line feed, nothing matches,
    and the headline comes back as one plain segment with its braces; the
    same pair alone, [{b<LF>c}], is highlighted, by the test on the part's
    first and last code unit. *)
Theorem renderHeadline_line_break (p : NewsPost) :
  renderHeadline p (js "a{b" ++ [10] ++ js "c}d")
    = [Plain (js "a{b" ++ [10] ++ js "c}d")] /\
  renderHeadline p (js "{b" ++ [10] ++ js "c}")
    = [Highlighted (highlightColor p) (js "b" ++ [10] ++ js "c")].
Proof. split; reflexivity. Qed.

Local Close Scope N_scope.

(** * Further properties of the code *)

Local Open Scope Q_scope.

(** ** Percentages of a laid-out rectangle *)

Lemma pct_monotone (a b w : Q) :
  0 < w -> a <= b -> a / w * 100 <= b / w * 100.
Proof.
  intros Hw Hab. apply Qmult_le_compat_r; [| discriminate].
  unfold Qdiv. apply Qmult_le_compat_r; [exact Hab |].
  apply Qlt_le_weak, Qinv_lt_0_compat, Hw.
Qed.

Lemma pct_of_zero (w : Q) : 0 / w * 100 == 0.
Proof. unfold Qdiv. now rewrite !Qmult_0_l. Qed.

Lemma pct_of_whole (w : Q) : 0 < w -> w / w * 100 == 100.
Proof.
  intro Hw. unfold Qdiv. rewrite Qmult_inv_r; [reflexivity |].
  intro H0. rewrite H0 in Hw. discriminate Hw.
Qed.

(** ** What pointer events leave alone *)

Lemma sameContent_refl (p : NewsPost) : sameContent p p.
Proof. repeat split. Qed.

Lemma sameContent_trans (p q r : NewsPost) :
  sameContent p q -> sameContent q r -> sameContent p r.
Proof.
  unfold sameContent. intros Hpq Hqr.
  decompose [and] Hpq. decompose [and] Hqr.
  repeat split; congruence.
Qed.

Lemma moveUpdater_sameContent (target : DragTarget) (e : PointerEvent)
    (rect : DOMRect) (prev : NewsPost) :
  sameContent prev (moveUpdater target e rect prev).
Proof. destruct target as [[| |] |]; repeat split. Qed.

Lemma dispatch_frame (ev : DomEvent) (st : AppState) :
  sameContent (post st) (post (fst (dispatch ev st))) /\
  isExporting (fst (dispatch ev st)) = isExporting st /\
  isSaving (fst (dispatch ev st)) = isSaving st.
Proof.
  split; [| split; [apply dispatch_isExporting |]].
  - destruct ev as [region e | e preview | region e]; simpl.
    + apply sameContent_refl.
    + unfold handlePointerMove.
      destruct (dragTarget st) as [t |]; [| apply sameContent_refl].
      destruct preview as [rect |]; [| apply sameContent_refl].
      destruct (Qgtb _ 5 || Qgtb _ 5);
        exact (moveUpdater_sameContent (Some t) e rect (post st)).
    + destruct region; apply sameContent_refl.
  - destruct ev as [region e | e preview | region e]; simpl.
    + reflexivity.
    + unfold handlePointerMove.
      destruct (dragTarget st) as [t |]; [| reflexivity].
      destruct preview as [rect |]; [| reflexivity].
      destruct (Qgtb _ 5 || Qgtb _ 5); reflexivity.
    + destruct region; reflexivity.
Qed.

(** X5: whatever pointer events the preview receives, in whatever order,
    the handlers only ever write [mainImageY], [circleX], [circleY] and
    [headlineY]: the texts, the colours, the two images, the format and the
    four sizes and zooms of the document keep their values, and so do the
    exporting and saving flags. *)
Theorem pointer_events_frame (evs : list DomEvent) (st : AppState) :
  sameContent (post st) (post (fst (dispatchAll evs st))) /\
  isExporting (fst (dispatchAll evs st)) = isExporting st /\
  isSaving (fst (dispatchAll evs st)) = isSaving st.
Proof.
  revert st. induction evs as [| ev evs IH]; intro st; simpl.
  - split; [apply sameContent_refl | split; reflexivity].
  - destruct (dispatch_frame ev st) as (Hc & He & Hs).
    destruct (dispatch ev st) as [st1 effs1]. simpl in Hc, He, Hs.
    destruct (IH st1) as (Hc' & He' & Hs').
    destruct (dispatchAll evs st1) as [st2 effs2]. simpl in *.
    split; [exact (sameContent_trans _ _ _ Hc Hc') | split; congruence].
Qed.

(** ** A gesture ends where its last move put the region *)

Lemma moveUpdater_overwrites (t : Target) (e1 e2 : PointerEvent)
    (rect1 rect2 : DOMRect) (prev : NewsPost) :
  moveUpdater (Some t) e2 rect2 (moveUpdater (Some t) e1 rect1 prev)
  = moveUpdater (Some t) e2 rect2 prev.
Proof. destruct t; reflexivity. Qed.

Lemma moves_post (moves : list (PointerEvent * option DOMRect))
    (st : AppState) (t : Target) :
  dragTarget st = Some t ->
  post (fst (dispatchAll (List.map (fun m => PointerMove (fst m) (snd m)) moves)
               st))
  = match lastHandled moves with
    | Some (e, rect) => moveUpdater (Some t) e rect (post st)
    | None => post st
    end.
Proof.
  revert st. induction moves as [| [e preview] moves IH]; intros st Ht.
  - reflexivity.
  - cbn [List.map dispatchAll dispatch fst snd lastHandled].
    destruct (handlePointerMove_classifier st e preview) as [Ht1 _].
    rewrite Ht in Ht1.
    specialize (IH (handlePointerMove e preview st) Ht1).
    destruct (dispatchAll _ (handlePointerMove e preview st)) as [st2 effs2].
    cbn [fst] in *. rewrite IH.
    destruct (lastHandled moves) as [[e' rect'] |].
    + destruct preview as [rect |].
      * rewrite (handlePointerMove_post st e rect t Ht).
        apply moveUpdater_overwrites.
      * unfold handlePointerMove. rewrite Ht. reflexivity.
    + destruct preview as [rect |].
      * exact (handlePointerMove_post st e rect t Ht).
      * unfold handlePointerMove. rewrite Ht. reflexivity.
Qed.

(** X6: the document a gesture leaves depends on its last handled
    pointer-move only: it is the pressed region's mapper applied to that
    move and the document before the gesture, so the earlier moves leave no
    trace; a gesture without a handled move leaves the document as it was.
    Neither the pointer-down nor the pointer-up writes the document. *)
Theorem gesture_last_move_wins (st : AppState) (region upRegion : Target)
    (down up : PointerEvent) (moves : list (PointerEvent * option DOMRect)) :
  post (fst (dispatchAll (gesture region down moves upRegion up) st))
  = match lastHandled moves with
    | Some (e, rect) => moveUpdater (Some region) e rect (post st)
    | None => post st
    end.
Proof.
  unfold gesture. cbn [dispatchAll dispatch]. unfold handlePointerDown.
  set (st0 := setIsDragging false _).
  rewrite dispatchAll_app.
  pose proof (moves_post moves st0 region eq_refl) as Hp.
  destruct (dispatchAll (List.map _ moves) st0) as [st1 effs1].
  cbn [fst] in Hp.
  assert (Hup : post (fst (dispatchAll [PointerUp upRegion up] st1)) = post st1)
    by (destruct upRegion; reflexivity).
  destruct (dispatchAll [PointerUp upRegion up] st1) as [st2 effs2].
  cbn [fst] in *. rewrite Hup, Hp. reflexivity.
Qed.

Lemma pct_nonpos (a w : Q) : 0 < w -> a <= 0 -> a / w * 100 <= 0.
Proof.
  intros Hw Ha. apply Qle_trans with (0 / w * 100).
  - now apply pct_monotone.
  - rewrite pct_of_zero. apply Qle_refl.
Qed.

Lemma pct_nonneg (a w : Q) : 0 < w -> 0 <= a -> 0 <= a / w * 100.
Proof.
  intros Hw Ha. apply Qle_trans with (0 / w * 100).
  - rewrite pct_of_zero. apply Qle_refl.
  - now apply pct_monotone.
Qed.

Lemma pct_at_least_whole (a w : Q) : 0 < w -> w <= a -> 100 <= a / w * 100.
Proof.
  intros Hw Ha. apply Qle_trans with (w / w * 100).
  - rewrite (pct_of_whole w Hw). apply Qle_refl.
  - now apply pct_monotone.
Qed.

Lemma pct_at_most_whole (a w : Q) : 0 < w -> a <= w -> a / w * 100 <= 100.
Proof.
  intros Hw Ha. apply Qle_trans with (w / w * 100).
  - now apply pct_monotone.
  - rewrite (pct_of_whole w Hw). apply Qle_refl.
Qed.

(** ** How the mappers follow the pointer *)

Ltac halves := unfold Qdiv in *; change (/ 2) with (1 # 2) in *.

(** X7: on a circle drag over a laid-out preview, with [circleSize]
    between 0 and 100: while the pointer is at least half a circle away from
    the edges, the middle of the circle is under the pointer
    ([circleX + circleSize / 2] is the pointer's percentage from the right
    edge, [circleY + circleSize / 2] its percentage from the top); a pointer
    at or beyond the right edge gives [circleX = 0], one at or beyond the
    left edge [circleX = 100 - circleSize], one at or above the top
    [circleY = 0] and one at or below the bottom
    [circleY = 100 - circleSize]. *)
Theorem circle_drag_tracks_pointer (st : AppState) (e : PointerEvent)
    (rect : DOMRect) :
  dragTarget st = Some Circle ->
  laidOut rect ->
  0 <= circleSize (post st) <= 100 ->
  let s := circleSize (post st) in
  let xPct := (right rect - clientX e) / width rect * 100 in
  let yPct := (clientY e - top rect) / height rect * 100 in
  let p := post (handlePointerMove e (Some rect) st) in
  (s / 2 <= xPct <= 100 - s / 2 ->
   circleRightPct p + circleWidthPct p / 2 == xPct) /\
  (s / 2 <= yPct <= 100 - s / 2 ->
   circleTopPct p + circleWidthPct p / 2 == yPct) /\
  (right rect <= clientX e -> circleX p == 0) /\
  (clientX e <= right rect - width rect -> circleX p == 100 - s) /\
  (clientY e <= top rect -> circleY p == 0) /\
  (top rect + height rect <= clientY e -> circleY p == 100 - s).
Proof.
  intros Ht [Hw Hh] Hs s xPct yPct p. subst p.
  rewrite (handlePointerMove_post st e rect Circle Ht), circle_update.
  unfold circleRightPct, circleTopPct, circleWidthPct.
  cbn [circleX circleY circleSize spread_circleXY].
  fold s xPct yPct. fold s in Hs.
  assert (Hx0 : right rect <= clientX e -> xPct <= 0)
    by (intro H; apply pct_nonpos; [exact Hw | lra]).
  assert (Hx1 : clientX e <= right rect - width rect -> 100 <= xPct)
    by (intro H; apply pct_at_least_whole; [exact Hw | lra]).
  assert (Hy0 : clientY e <= top rect -> yPct <= 0)
    by (intro H; apply pct_nonpos; [exact Hh | lra]).
  assert (Hy1 : top rect + height rect <= clientY e -> 100 <= yPct)
    by (intro H; apply pct_at_least_whole; [exact Hh | lra]).
  clearbody xPct yPct.
  repeat split; intro H.
  - rewrite clamp_inside; halves; lra.
  - rewrite clamp_inside; halves; lra.
  - specialize (Hx0 H). rewrite Q.min_r by (halves; lra).
    apply Q.max_l. halves; lra.
  - specialize (Hx1 H). rewrite Q.min_l by (halves; lra).
    apply Q.max_r. lra.
  - specialize (Hy0 H). rewrite Q.min_r by (halves; lra).
    apply Q.max_l. halves; lra.
  - specialize (Hy1 H). rewrite Q.min_l by (halves; lra).
    apply Q.max_r. lra.
Qed.

(** A pointer in the middle of the preview, and one far to its left. *)
Lemma circle_drag_tracks_pointer_witness :
  circleX (post (handlePointerMove
                   {| pointerId := 1%N; clientX := 300; clientY := 300 |}
                   (Some rect600) circleDragState))
  + circleSize (post circleDragState) / 2 == 50 /\
  circleX (post (handlePointerMove
                   {| pointerId := 1%N; clientX := -80; clientY := 300 |}
                   (Some rect600) circleDragState)) == 70.
Proof.
  split.
  - refine (Qeq_trans _ _ _
              (proj1 (circle_drag_tracks_pointer circleDragState
                        {| pointerId := 1%N; clientX := 300; clientY := 300 |}
                        rect600 _ _ _) _) _).
    + reflexivity.
    + split; reflexivity.
    + split; discriminate.
    + split; discriminate.
    + reflexivity.
  - refine (Qeq_trans _ _ _
              (proj1 (proj2 (proj2 (proj2
                 (circle_drag_tracks_pointer circleDragState
                    {| pointerId := 1%N; clientX := -80; clientY := 300 |}
                    rect600 _ _ _)))) _) _).
    + reflexivity.
    + split; reflexivity.
    + split; discriminate.
    + discriminate.
    + reflexivity.
Defined.

(** X8: on a background drag over a laid-out preview, [mainImageY] is the
    pointer's height in the preview in percent while the pointer is between
    the top and the bottom edge, 0 when it is at or above the top edge and
    100 when it is at or below the bottom edge. *)
Theorem background_drag_tracks_pointer (st : AppState) (e : PointerEvent)
    (rect : DOMRect) :
  dragTarget st = Some Background ->
  laidOut rect ->
  let p := post (handlePointerMove e (Some rect) st) in
  (top rect <= clientY e <= top rect + height rect ->
   mainImageY p == (clientY e - top rect) / height rect * 100) /\
  (clientY e <= top rect -> mainImageY p == 0) /\
  (top rect + height rect <= clientY e -> mainImageY p == 100).
Proof.
  intros Ht [_ Hh] p. subst p.
  rewrite (handlePointerMove_post st e rect Background Ht).
  unfold moveUpdater. cbn [mainImageY spread_mainImageY].
  set (yPct := (clientY e - top rect) / height rect * 100).
  assert (Hy0 : clientY e <= top rect -> yPct <= 0)
    by (intro H; apply pct_nonpos; [exact Hh | lra]).
  assert (Hy0' : top rect <= clientY e -> 0 <= yPct)
    by (intro H; apply pct_nonneg; [exact Hh | lra]).
  assert (Hy1 : top rect + height rect <= clientY e -> 100 <= yPct)
    by (intro H; apply pct_at_least_whole; [exact Hh | lra]).
  assert (Hy1' : clientY e <= top rect + height rect -> yPct <= 100)
    by (intro H; apply pct_at_most_whole; [exact Hh | lra]).
  clearbody yPct.
  repeat split; intro H.
  - apply clamp_inside. split; [apply Hy0' | apply Hy1']; tauto.
  - specialize (Hy0 H). rewrite Q.min_r by lra. apply Q.max_l. exact Hy0.
  - specialize (Hy1 H). rewrite Q.min_l by lra. apply Q.max_r. discriminate.
Qed.

(** A pointer a quarter down the preview, and one below it. *)
Lemma background_drag_tracks_pointer_witness :
  mainImageY (post (handlePointerMove
                      {| pointerId := 1%N; clientX := 300; clientY := 150 |}
                      (Some rect600) backgroundDragState)) == 25 /\
  mainImageY (post (handlePointerMove
                      {| pointerId := 1%N; clientX := 300; clientY := 900 |}
                      (Some rect600) backgroundDragState)) == 100.
Proof.
  split.
  - refine (Qeq_trans _ _ _
              (proj1 (background_drag_tracks_pointer backgroundDragState
                        {| pointerId := 1%N; clientX := 300; clientY := 150 |}
                        rect600 _ _) _) _).
    + reflexivity.
    + split; reflexivity.
    + split; discriminate.
    + reflexivity.
  - refine (proj2 (proj2 (background_drag_tracks_pointer backgroundDragState
               {| pointerId := 1%N; clientX := 300; clientY := 900 |}
               rect600 _ _)) _).
    + reflexivity.
    + split; reflexivity.
    + discriminate.
Defined.

(** X9: the mappers keep the order of pointer positions over a laid-out
    preview.  Of two pointer positions, the one further right gives a
    [circleX] (measured from the right edge) that is not larger; the one
    further down gives a [circleY] and a [mainImageY] that are not smaller
    and a [headlineY] (measured from the bottom) that is not larger. *)
Theorem drag_keeps_pointer_order (e1 e2 : PointerEvent) (rect : DOMRect)
    (prev : NewsPost) :
  laidOut rect ->
  (clientX e1 <= clientX e2 ->
   circleX (moveUpdater (Some Circle) e2 rect prev)
   <= circleX (moveUpdater (Some Circle) e1 rect prev)) /\
  (clientY e1 <= clientY e2 ->
   circleY (moveUpdater (Some Circle) e1 rect prev)
   <= circleY (moveUpdater (Some Circle) e2 rect prev) /\
   mainImageY (moveUpdater (Some Background) e1 rect prev)
   <= mainImageY (moveUpdater (Some Background) e2 rect prev) /\
   headlineY (moveUpdater (Some Headline) e2 rect prev)
   <= headlineY (moveUpdater (Some Headline) e1 rect prev)).
Proof.
  intros [Hw Hh]. split; intro H.
  - rewrite !circle_update. cbn [circleX spread_circleXY].
    apply Q.max_le_compat_l, Q.min_le_compat_l.
    assert (Hp : (right rect - clientX e2) / width rect * 100
                 <= (right rect - clientX e1) / width rect * 100)
      by (apply pct_monotone; [exact Hw | lra]).
    lra.
  - assert (Hp : (clientY e1 - top rect) / height rect * 100
                 <= (clientY e2 - top rect) / height rect * 100)
      by (apply pct_monotone; [exact Hh | lra]).
    repeat split.
    + rewrite !circle_update. cbn [circleY spread_circleXY].
      apply Q.max_le_compat_l, Q.min_le_compat_l. lra.
    + unfold moveUpdater. cbn [mainImageY spread_mainImageY].
      apply Q.max_le_compat_l, Q.min_le_compat_l. exact Hp.
    + unfold moveUpdater. cbn [headlineY spread_headlineY].
      destruct (PostFormat_eqb (format prev) Format_9_16); lra.
Qed.

(** Two pointers on one row of the 600 pixel preview, 200 pixels apart. *)
Lemma drag_keeps_pointer_order_witness :
  circleX (moveUpdater (Some Circle)
             {| pointerId := 1%N; clientX := 400; clientY := 300 |}
             rect600 initialPost)
  <= circleX (moveUpdater (Some Circle)
                {| pointerId := 1%N; clientX := 200; clientY := 300 |}
                rect600 initialPost).
Proof.
  refine (proj1 (drag_keeps_pointer_order
                   {| pointerId := 1%N; clientX := 200; clientY := 300 |}
                   {| pointerId := 1%N; clientX := 400; clientY := 300 |}
                   rect600 initialPost _) _).
  - split; reflexivity.
  - discriminate.
Defined.

(** X10: after a headline drag the headline block is placed with its
    bottom edge a fixed distance below the pointer: its [bottom] style is
    the pointer's distance from the bottom edge of the preview less 20
    pixels, or less 40 pixels in the 9:16 format.  Nothing bounds it: a
    pointer below that line of the preview gives a negative [bottom]. *)
Theorem headline_bottom_follows_pointer (st : AppState) (e : PointerEvent)
    (rect : DOMRect) :
  dragTarget st = Some Headline ->
  headlineBottomPx (post (handlePointerMove e (Some rect) st))
  == (bottom rect - clientY e)
     - match format (post st) with
       | Format_9_16 => 40
       | Format_1_1 | Format_16_9 => 20
       end.
Proof.
  intro Ht. rewrite (handlePointerMove_post st e rect Headline Ht).
  unfold headlineBottomPx, moveUpdater.
  cbn [headlineY format spread_headlineY].
  destruct (format (post st)); cbn [PostFormat_eqb]; lra.
Qed.

(** The headline pressed and dragged to 10 pixels above the bottom edge. *)
Lemma headline_bottom_follows_pointer_witness :
  headlineBottomPx
    (post (handlePointerMove
             {| pointerId := 1%N; clientX := 100; clientY := 590 |}
             (Some rect600) jitterState)) == -10.
Proof.
  refine (Qeq_trans _ _ _
            (headline_bottom_follows_pointer jitterState
               {| pointerId := 1%N; clientX := 100; clientY := 590 |}
               rect600 _) _); reflexivity.
Defined.

(** ** The headline renderer on every text *)

Local Open Scope N_scope.

Lemma lazyDotsThenClose_prefix (s run rest : jsstring) :
  lazyDotsThenClose s = Some (run, rest) -> s = run ++ RBRACE :: rest.
Proof.
  revert run. induction s as [| c s IH]; intros run H; simpl in H.
  - discriminate.
  - destruct (c =? RBRACE) eqn:Hc.
    + apply N.eqb_eq in Hc. injection H as <- <-. now subst c.
    + destruct (isLineTerminator c); [discriminate |].
      destruct (lazyDotsThenClose s) as [[run' rest'] |]; [| discriminate].
      injection H as <- <-. simpl. f_equal. now apply IH.
Qed.

Lemma matchHere_prefix (s m : jsstring) :
  matchHere s = Some m ->
  exists c m' rest, m = c :: m' /\ s = c :: m' ++ rest.
Proof.
  destruct s as [| c s]; simpl; [discriminate |].
  destruct (c =? LBRACE) eqn:Hc; [| discriminate].
  apply N.eqb_eq in Hc. subst c.
  destruct (lazyDotsThenClose s) as [[run rest] |] eqn:Hl; [| discriminate].
  intro H. injection H as <-.
  exists LBRACE, (run ++ [RBRACE]), rest. split; [reflexivity |].
  rewrite (lazyDotsThenClose_prefix s run rest Hl).
  now rewrite <- app_assoc.
Qed.

Lemma splitLoop_concat (s : jsstring) (k : nat) (pending : jsstring) :
  List.concat (splitLoop k pending s) = rev pending ++ skipn k s.
Proof.
  revert k pending. induction s as [| c s IH]; intros k pending.
  - simpl. now rewrite skipn_nil.
  - destruct k as [| k].
    + cbn [splitLoop skipn].
      destruct (matchHere (c :: s)) as [m |] eqn:Hm.
      * destruct (matchHere_prefix _ _ Hm) as (c' & m' & rest & -> & Hs).
        injection Hs as <- ->.
        cbn [List.concat]. rewrite IH.
        replace (List.length (c :: m') - 1)%nat with (List.length m')
          by (simpl; now rewrite Nat.sub_0_r).
        rewrite skipn_app, skipn_all, Nat.sub_diag.
        reflexivity.
      * rewrite IH. cbn [rev skipn]. now rewrite <- app_assoc.
    + cbn [splitLoop skipn]. apply IH.
Qed.

Lemma renderPart_source (color part : jsstring) :
  segmentSource (renderPart color part) = part.
Proof.
  unfold renderPart, startsWithLBrace, endsWithRBrace, slice_1_m1.
  destruct part as [| c part]; [reflexivity |].
  destruct (c =? LBRACE) eqn:Hc; [| reflexivity].
  apply N.eqb_eq in Hc. subst c.
  destruct (rev (LBRACE :: part)) as [| d r] eqn:Hr; [reflexivity |].
  destruct (d =? RBRACE) eqn:Hd; [| reflexivity].
  apply N.eqb_eq in Hd. subst d. cbn [andb segmentSource tl].
  f_equal.
  assert (Hrev : LBRACE :: part = rev r ++ [RBRACE]).
  { rewrite <- (rev_involutive (LBRACE :: part)), Hr. reflexivity. }
  destruct (rev r) as [| x r'] eqn:Hx.
  - discriminate Hrev.
  - injection Hrev as _ ->. now rewrite removelast_last.
Qed.

(** X2: the headline renderer loses no character of any headline,
    balanced or not: putting the braces back around every highlighted
    segment and reading the segments in order gives the headline again. *)
Theorem renderHeadline_round_trip (p : NewsPost) (text : jsstring) :
  List.concat (List.map segmentSource (renderHeadline p text)) = text.
Proof.
  unfold renderHeadline. rewrite List.map_map.
  rewrite (List.map_ext _ (fun part => part)
             (renderPart_source (highlightColor p))).
  rewrite List.map_id. unfold splitOnBraces.
  now rewrite splitLoop_concat.
Qed.

Local Close Scope N_scope.

(** ** The ranges of the document *)

Local Open Scope Q_scope.

Lemma moveUpdater_ranges (target : DragTarget) (e : PointerEvent)
    (rect : DOMRect) (prev : NewsPost) :
  rangesOk prev -> rangesOk (moveUpdater target e rect prev).
Proof.
  unfold rangesOk. intros (Hm & Hs & Hz & Hi & Hh & Hx & Hy).
  destruct target as [[| |] |]; try (repeat split; tauto).
  - (* background *)
    unfold moveUpdater. cbn.
    pose proof (clamp_bounds 0 100
                  ((clientY e - top rect) / height rect * 100)) as Hc.
    repeat split; try tauto; apply Hc; discriminate.
  - (* circle *)
    rewrite circle_update. cbn.
    set (s := circleSize prev) in *.
    assert (Hs' : 0 <= 100 - s) by lra.
    pose proof (clamp_bounds 0 (100 - s)
                  ((right rect - clientX e) / width rect * 100 - s / 2) Hs').
    pose proof (clamp_bounds 0 (100 - s)
                  ((clientY e - top rect) / height rect * 100 - s / 2) Hs').
    repeat split; try tauto; lra.
Qed.

Lemma dispatch_ranges (ev : DomEvent) (st : AppState) :
  rangesOk (post st) -> rangesOk (post (fst (dispatch ev st))).
Proof.
  intro H. destruct ev as [region e | e preview | region e]; simpl.
  - exact H.
  - unfold handlePointerMove.
    destruct (dragTarget st) as [t |]; [| exact H].
    destruct preview as [rect |]; [| exact H].
    destruct (Qgtb _ 5 || Qgtb _ 5);
      exact (moveUpdater_ranges (Some t) e rect (post st) H).
  - destruct region; exact H.
Qed.

Lemma inject_Z_between (lo hi v : Z) :
  (lo <= v <= hi)%Z -> inject_Z lo <= inject_Z v <= inject_Z hi.
Proof. intros [H1 H2]. split; now rewrite <- Zle_Qle. Qed.

Lemma uiStep_ranges (ev : UiEvent) (st : AppState) :
  eventInRange ev -> rangesOk (post st) ->
  rangesOk (post (fst (uiStep ev st))).
Proof.
  intros Hev H.
  destruct ev; cbn [eventInRange] in Hev; cbn [uiStep fst];
    try exact H;
    try (apply dispatch_ranges; exact H);
    try (unfold rangesOk in *; cbn; tauto).
  - (* the headline size *)
    apply (inject_Z_between 40 160) in Hev.
    unfold rangesOk in *. cbn. tauto.
  - (* the circle size *)
    apply (inject_Z_between 10 70) in Hev.
    unfold rangesOk in *. cbn. tauto.
  - (* the inner pan *)
    apply (inject_Z_between 0 100) in Hev.
    unfold rangesOk in *. cbn. tauto.
  - (* a file read *)
    destruct type; unfold rangesOk in *; cbn; tauto.
  - (* the saved document *)
    destruct savedPost as [saved |]; [exact Hev | exact H].
Qed.

(** X11: the numbers of the document stay in their ranges whatever the
    user does.  From a document with [mainImageY] and [circleImageY] in
    [0, 100], [circleSize] in [10, 70], [circleImageScale] in [1, 3],
    [headlineSize] in [40, 160] and [circleX], [circleY] in [0, 90], every
    sequence of pointer events, control changes, file reads and loads of a
    saved document in range leaves a document in these ranges. *)
Theorem ui_keeps_ranges (evs : list UiEvent) (st : AppState) :
  Forall eventInRange evs ->
  rangesOk (post st) ->
  rangesOk (post (fst (uiRun evs st))).
Proof.
  intro Hevs. revert st.
  induction Hevs as [| ev evs Hev _ IH]; intros st H; simpl.
  - exact H.
  - pose proof (uiStep_ranges ev st Hev H) as H1.
    destruct (uiStep ev st) as [st1 effs1]. simpl in H1.
    specialize (IH st1 H1).
    destruct (uiRun evs st1) as [st2 effs2]. exact IH.
Qed.

Lemma initialPost_ranges : rangesOk initialPost.
Proof. unfold rangesOk. cbn. repeat split; discriminate. Qed.

(** The circle made as large as the slider allows, pressed and dragged far
    out of the preview, then the format switched. *)
Lemma ui_keeps_ranges_witness :
  rangesOk
    (post (fst (uiRun
                  [CircleSizeInput 70;
                   Pointer (PointerDown Circle
                              {| pointerId := 1%N; clientX := 500;
                                 clientY := 100 |});
                   Pointer (PointerMove
                              {| pointerId := 1%N; clientX := -900;
                                 clientY := 4000 |} (Some rect600));
                   Pointer (PointerUp Circle
                              {| pointerId := 1%N; clientX := -900;
                                 clientY := 4000 |});
                   FormatClick Format_9_16]
                  initialState))).
Proof.
  apply ui_keeps_ranges.
  - repeat constructor; try discriminate; reflexivity.
  - exact initialPost_ranges.
Defined.

(** ** File reads *)

(** X13: the end of a file read writes one field of the document, the main
    image for ['main'] and the circle image for ['circle'], with the
    reader's result (null when the read failed, which removes the image),
    and it is applied to the document of that moment: a read that ends in
    the middle of a drag and the drag's pointer-move give the same state in
    either order, neither losing the other's update. *)
Theorem reader_end_commutes_with_drag (type : ImageType)
    (result : option jsstring) (e : PointerEvent)
    (preview : option DOMRect) (st : AppState) :
  readerOnLoadEnd type result (handlePointerMove e preview st)
  = handlePointerMove e preview (readerOnLoadEnd type result st) /\
  (let prev := post st in
   let p := post (readerOnLoadEnd type result st) in
   match type with
   | ImageMain => mainImage p = result /\ circleImage p = circleImage prev
   | ImageCircle => circleImage p = result /\ mainImage p = mainImage prev
   end /\
   brandName p = brandName prev /\ headline p = headline prev /\
   highlightColor p = highlightColor prev /\ brandColor p = brandColor prev /\
   format p = format prev /\ mainImageY p = mainImageY prev /\
   circleImageY p = circleImageY prev /\
   circleImageScale p = circleImageScale prev /\
   circleX p = circleX prev /\ circleY p = circleY prev /\
   circleSize p = circleSize prev /\ headlineSize p = headlineSize prev /\
   headlineY p = headlineY prev).
Proof.
  split.
  - unfold handlePointerMove, readerOnLoadEnd. cbn [dragTarget setPost].
    destruct (dragTarget st) as [t |]; [| reflexivity].
    destruct preview as [rect |]; [| reflexivity].
    cbn [dragStart]. destruct (Qgtb _ 5 || Qgtb _ 5);
      destruct t, type; reflexivity.
  - destruct type; cbn; repeat split.
Qed.

(** ** The circle stays in bounds unless its size is changed *)

Lemma uiStep_circleInBounds (ev : UiEvent) (st : AppState) :
  keepsCircle ev -> circleSize (post st) <= 100 ->
  circleInBounds (post st) ->
  circleInBounds (post (fst (uiStep ev st))).
Proof.
  intros Hev Hs H.
  destruct ev; cbn [keepsCircle] in Hev; cbn [uiStep fst];
    try exact H; try contradiction.
  - (* a pointer event *)
    destruct ev as [region e | e preview | region e]; simpl.
    + exact H.
    + unfold handlePointerMove.
      destruct (dragTarget st) as [t |]; [| exact H].
      destruct preview as [rect |]; [| exact H].
      assert (Hm : circleInBounds (moveUpdater (Some t) e rect (post st))).
      { destruct t; [exact H | | exact H].
        now apply circle_update_in_bounds. }
      destruct (Qgtb _ 5 || Qgtb _ 5); exact Hm.
    + destruct region; exact H.
  - (* a file read *)
    destruct type; exact H.
  - (* the saved document *)
    destruct savedPost as [saved |]; [exact Hev | exact H].
Qed.

(** X12: only the circle-size slider can push the circle out of the
    preview.  From a document in range whose circle is in bounds
    ([circleX + circleSize <= 100] and [circleY + circleSize <= 100], both
    positions at least 0), every sequence of pointer events, changes of the
    other controls, file reads and loads of a saved document that is in
    range with its circle in bounds leaves the circle in bounds. *)
Theorem circle_stays_in_bounds (evs : list UiEvent) (st : AppState) :
  Forall eventInRange evs ->
  Forall keepsCircle evs ->
  rangesOk (post st) ->
  circleInBounds (post st) ->
  circleInBounds (post (fst (uiRun evs st))).
Proof.
  intros Hr Hk. revert st Hk.
  induction Hr as [| ev evs Hev _ IH]; intros st Hk Hrng H; simpl.
  - exact H.
  - inversion Hk as [| ? ? Hk1 Hk2]; subst.
    assert (Hs : circleSize (post st) <= 100)
      by (destruct Hrng as (_ & [_ Hs] & _); lra).
    pose proof (uiStep_circleInBounds ev st Hk1 Hs H) as H1.
    pose proof (uiStep_ranges ev st Hev Hrng) as Hrng1.
    destruct (uiStep ev st) as [st1 effs1]. simpl in H1, Hrng1.
    specialize (IH st1 Hk2 Hrng1 H1).
    destruct (uiRun evs st1) as [st2 effs2]. exact IH.
Qed.

Lemma initialPost_circleInBounds : circleInBounds initialPost.
Proof. unfold circleInBounds. cbn. repeat split; discriminate. Qed.

(** The circle dragged out to the left, the headline made larger and the
    circle removed. *)
Lemma circle_stays_in_bounds_witness :
  circleInBounds
    (post (fst (uiRun
                  [Pointer (PointerDown Circle
                              {| pointerId := 1%N; clientX := 500;
                                 clientY := 100 |});
                   Pointer (PointerMove
                              {| pointerId := 1%N; clientX := -900;
                                 clientY := 4000 |} (Some rect600));
                   HeadlineSizeInput 160;
                   RemoveCircleClick]
                  initialState))).
Proof.
  apply circle_stays_in_bounds.
  - repeat constructor; try discriminate; reflexivity.
  - repeat constructor.
  - exact initialPost_ranges.
  - exact initialPost_circleInBounds.
Defined.

(** ** Every export ends *)

(** X14: an export in flight ends as soon as the promises it awaits have
    settled, however they settle: after at most three settlements the
    exporting flag is down and no export is left; the export has ended
    exactly once, by the download or by the alert, after at most one call of
    the rasterizer; and the next click on the export button starts a new
    export. *)
Theorem export_always_ends (evs : list SystemEvent) (f1 f2 f3 : bool) :
  isExporting (app (fst (systemRun evs initialSystem))) = true ->
  let sys := fst (systemRun evs initialSystem) in
  let res := systemRun [Resume 0 f1; Resume 0 f2; Resume 0 f3] sys in
  isExporting (app (fst res)) = false /\
  exports (fst res) = [] /\
  List.length (List.filter isExportEnd (snd res)) = 1%nat /\
  (List.length (List.filter isRasterizerCall (snd res)) <= 1)%nat /\
  exports (fst (systemStep (ClickExport true) (fst res))) = [AwaitFontsReady].
Proof.
  intros Ht sys res.
  pose proof (systemRun_invariant evs initialSystem initialSystem_invariant)
    as Hinv.
  fold sys in Hinv, Ht.
  destruct Hinv as [[Hf _] | [_ [ph Hone]]]; [congruence |].
  subst res. destruct sys as [a l]. simpl in Hone, Ht. subst l.
  destruct ph, f1, f2, f3; cbn; repeat split; auto.
Qed.

(** An export whose rasterizer call fails. *)
Lemma export_always_ends_witness :
  snd (systemRun
         [ClickExport true; Resume 0 true; Resume 0 true; Resume 0 false]
         initialSystem)
    = [InvokeRasterizer; Alert] /\
  isExporting
    (app (fst (systemRun
                 [Resume 0 true; Resume 0 true; Resume 0 false]
                 (fst (systemRun [ClickExport true] initialSystem)))))
    = false.
Proof.
  split; [reflexivity |].
  apply (export_always_ends [ClickExport true] true true false).
  reflexivity.
Defined.

(** ** Saving is debounced *)

Local Open Scope N_scope.

Lemma idb_get_set (key : jsstring) (val : NewsPost) (store : ObjectStore) :
  idb_get key (idb_set key val store) = Some val.
Proof.
  unfold idb_get, idb_set, jsstring_eqb.
  destruct (list_eq_dec N.eq_dec key key); [reflexivity | contradiction].
Qed.

Lemma persistStep_render (now : N) (p : NewsPost) (ps : Persistence) :
  saveTimer (persistStep (RenderPost now p) ps) = Some (now + 1000, p).
Proof. reflexivity. Qed.

(** A render before the timer is due replaces the timer and saves
    nothing. *)
Lemma persistStep_render_early (now due : N) (p q : NewsPost)
    (ps : Persistence) :
  saveTimer ps = Some (due, q) -> now < due ->
  persistStep (RenderPost now p) ps
  = {| saveTimer := Some (now + 1000, p); db := db ps; saved := saved ps |}.
Proof.
  intros Ht Hlt. unfold persistStep, runDueTimer. rewrite Ht.
  destruct (due <=? now) eqn:Hd; [| reflexivity].
  apply N.leb_le in Hd. lia.
Qed.

Lemma burst_saves_nothing (burst : list (N * NewsPost)) (t0 : N)
    (p0 : NewsPost) (ps : Persistence) :
  Forall (fun g => fst g < 1000) burst ->
  (saveTimer ps = None \/
   exists due q, saveTimer ps = Some (due, q) /\ t0 < due) ->
  persistRun (burstTicks t0 p0 burst) ps
  = {| saveTimer :=
         Some (fst (burstEnd t0 p0 burst) + 1000, snd (burstEnd t0 p0 burst));
       db := db ps; saved := saved ps |}.
Proof.
  intro Hgaps. revert t0 p0 ps.
  induction Hgaps as [| [gap p] rest Hgap _ IH]; intros t0 p0 ps Hps.
  - cbn [burstTicks burstEnd persistRun List.fold_left fst snd].
    destruct Hps as [Hn | (due & q & Ht & Hlt)].
    + unfold persistStep, runDueTimer. rewrite Hn. reflexivity.
    + exact (persistStep_render_early t0 due p0 q ps Ht Hlt).
  - cbn [burstTicks burstEnd persistRun List.fold_left].
    change (List.fold_left (fun acc ev => persistStep ev acc)
              (burstTicks (t0 + gap) p rest)
              (persistStep (RenderPost t0 p0) ps))
      with (persistRun (burstTicks (t0 + gap) p rest)
              (persistStep (RenderPost t0 p0) ps)).
    assert (Hstep : persistStep (RenderPost t0 p0) ps
                    = {| saveTimer := Some (t0 + 1000, p0);
                         db := db ps; saved := saved ps |}).
    { destruct Hps as [Hn | (due & q & Ht & Hlt)].
      - unfold persistStep, runDueTimer. rewrite Hn. reflexivity.
      - exact (persistStep_render_early t0 due p0 q ps Ht Hlt). }
    rewrite Hstep. rewrite IH.
    + reflexivity.
    + right. exists (t0 + 1000), p0. split; [reflexivity |].
      simpl in Hgap. lia.
Qed.

(** X15: saving is debounced.  When the document changes several times,
    each change less than a second after the one before, nothing is passed
    to [idb.set] until a second has gone by since the last change, and then
    exactly one document is: the last one, under the key ['currentPost'];
    the documents in between are never saved. *)
Theorem save_is_debounced (t0 horizon : N) (p0 : NewsPost)
    (burst : list (N * NewsPost)) (store : ObjectStore) :
  Forall (fun g => fst g < 1000) burst ->
  let last := burstEnd t0 p0 burst in
  let ps := persistRun (burstTicks t0 p0 burst ++ [Idle horizon])
              {| saveTimer := None; db := store; saved := [] |} in
  (horizon < fst last + 1000 ->
   saved ps = [] /\ idb_get STATE_KEY (db ps) = idb_get STATE_KEY store) /\
  (fst last + 1000 <= horizon ->
   saved ps = [snd last] /\ idb_get STATE_KEY (db ps) = Some (snd last)).
Proof.
  intros Hgaps last ps. subst ps. unfold persistRun.
  rewrite List.fold_left_app.
  change (List.fold_left (fun acc ev => persistStep ev acc)
            (burstTicks t0 p0 burst)
            {| saveTimer := None; db := store; saved := [] |})
    with (persistRun (burstTicks t0 p0 burst)
            {| saveTimer := None; db := store; saved := [] |}).
  rewrite (burst_saves_nothing burst t0 p0
             {| saveTimer := None; db := store; saved := [] |} Hgaps
             (or_introl eq_refl)).
  fold last. cbn [List.fold_left persistStep runDueTimer saveTimer db saved].
  split; intro H.
  - assert (Hd : (fst last + 1000 <=? horizon) = false)
      by (apply N.leb_gt; exact H).
    rewrite Hd. split; reflexivity.
  - assert (Hd : (fst last + 1000 <=? horizon) = true)
      by (apply N.leb_le; exact H).
    rewrite Hd. cbn [saved db app]. split; [reflexivity |].
    apply idb_get_set.
Qed.

(** Three changes 400 milliseconds apart and a look 1.5 seconds later. *)
Lemma save_is_debounced_witness :
  saved (persistRun
           (burstTicks 0 initialPost
              [(400, spread_headlineY initialPost 12%Q);
               (400, spread_headlineY initialPost 25%Q)]
            ++ [Idle 2300])
           {| saveTimer := None; db := emptyStore; saved := [] |})
  = [spread_headlineY initialPost 25%Q].
Proof.
  refine (proj1 (proj2 (save_is_debounced 0 2300 initialPost
                          [(400, spread_headlineY initialPost 12%Q);
                           (400, spread_headlineY initialPost 25%Q)]
                          emptyStore _) _)).
  - repeat constructor.
  - discriminate.
Defined.

Lemma runDueTimer_due (now due : N) (q : NewsPost) (ps : Persistence) :
  saveTimer ps = Some (due, q) -> due <= now ->
  runDueTimer now ps
  = {| saveTimer := None; db := idb_set STATE_KEY q (db ps);
       saved := saved ps ++ [q] |}.
Proof.
  intros Ht Hle. unfold runDueTimer. rewrite Ht.
  apply N.leb_le in Hle. now rewrite Hle.
Qed.

Lemma persistRun_app (evs1 evs2 : list Tick) (ps : Persistence) :
  persistRun (evs1 ++ evs2) ps = persistRun evs2 (persistRun evs1 ps).
Proof. apply List.fold_left_app. Qed.

(** X16: what is on the screen is what a restart brings back.  Whatever
    renders came before, once a second has gone by since the last render
    with a new document, that document is the last one passed to [idb.set]
    and the one the store holds under ['currentPost'], and a component
    started on that store shows it. *)
Theorem quiet_second_saves_current (before : list Tick) (now horizon : N)
    (p : NewsPost) (ps : Persistence) :
  now + 1000 <= horizon ->
  let ps' := persistRun (before ++ [RenderPost now p; Idle horizon]) ps in
  List.last (saved ps') p = p /\
  saved ps' <> [] /\
  idb_get STATE_KEY (db ps') = Some p /\
  post (startWith (db ps')) = p.
Proof.
  intros Hq ps'. subst ps'. rewrite persistRun_app.
  set (ps0 := persistRun before ps).
  cbn [persistRun List.fold_left]. cbn [persistStep].
  set (ps1 := {| saveTimer := Some (now + 1000, p);
                 db := db (runDueTimer now ps0);
                 saved := saved (runDueTimer now ps0) |}).
  rewrite (runDueTimer_due horizon (now + 1000) p ps1 eq_refl Hq).
  cbn [saved db].
  split; [apply List.last_last | split; [| split]].
  - intro He. apply app_eq_nil in He. destruct He as [_ He]. discriminate He.
  - apply idb_get_set.
  - unfold startWith. rewrite idb_get_set. reflexivity.
Qed.

(** A drag saved late: an old timer runs first, then the last document. *)
Lemma quiet_second_saves_current_witness :
  post (startWith
          (db (persistRun
                 ([RenderPost 0 initialPost]
                  ++ [RenderPost 5000 (spread_headlineY initialPost 25%Q);
                      Idle 6000])
                 {| saveTimer := None; db := emptyStore; saved := [] |})))
  = spread_headlineY initialPost 25%Q.
Proof.
  refine (proj2 (proj2 (proj2
            (quiet_second_saves_current [RenderPost 0 initialPost] 5000 6000
               (spread_headlineY initialPost 25%Q)
               {| saveTimer := None; db := emptyStore; saved := [] |} _)))).
  discriminate.
Defined.

Local Close Scope N_scope.

(** ** The service worker's cache *)

Section ServiceWorker.
Context `{api : BrowserApi}.
Implicit Types (q c : Request) (r : Response).
Implicit Types (entries pending : list (Request * Response)).
Implicit Types (w : Worker) (network : Request -> option Response).

Lemma jsstring_eqb_eq (a b : jsstring) : jsstring_eqb a b = true <-> a = b.
Proof.
  unfold jsstring_eqb. destruct (list_eq_dec N.eq_dec a b); split;
    congruence.
Qed.

Lemma jsstring_eqb_neq (a b : jsstring) : jsstring_eqb a b = false <-> a <> b.
Proof.
  unfold jsstring_eqb. destruct (list_eq_dec N.eq_dec a b); split;
    congruence.
Qed.

Lemma putRejects_star r : putRejects r = false -> varyHasStar r = false.
Proof. unfold putRejects. intro H. now apply orb_false_iff in H. Qed.

(** With plain [Vary] headers a request matches an entry without
    [Vary: *] exactly when the keys are equal. *)
Lemma requestMatches_same q (entry : Request * Response) :
  plainVary -> varyHasStar (snd entry) = false ->
  cacheKey q = cacheKey (fst entry) -> requestMatches q entry = true.
Proof.
  intros Hv Hs Hk. unfold requestMatches.
  rewrite (Hv q (fst entry) (snd entry) Hs), andb_true_r.
  now apply jsstring_eqb_eq.
Qed.

Lemma requestMatches_other q (entry : Request * Response) :
  cacheKey q <> cacheKey (fst entry) -> requestMatches q entry = false.
Proof.
  intro Hk. unfold requestMatches.
  apply jsstring_eqb_neq in Hk. now rewrite Hk.
Qed.

Lemma cacheMatch_app q entries entries' :
  cacheMatch q (entries ++ entries')
  = match cacheMatch q entries with
    | Some r => Some r
    | None => cacheMatch q entries'
    end.
Proof.
  induction entries as [| e entries IH]; simpl; [reflexivity |].
  destruct (requestMatches q e); [reflexivity | exact IH].
Qed.

Lemma cacheMatch_same_key q q' entries :
  plainVary -> noStar entries -> cacheKey q' = cacheKey q ->
  cacheMatch q' entries = cacheMatch q entries.
Proof.
  intros Hv Hs Hk. induction Hs as [| e entries He _ IH]; [reflexivity |].
  simpl.
  destruct (list_eq_dec N.eq_dec (cacheKey q) (cacheKey (fst e))) as [Heq | Hne].
  - rewrite (requestMatches_same q e Hv He Heq).
    rewrite (requestMatches_same q' e Hv He); [reflexivity | congruence].
  - rewrite (requestMatches_other q e Hne).
    rewrite (requestMatches_other q' e); [exact IH | congruence].
Qed.

Lemma cacheMatch_none_filter q entries :
  plainVary -> noStar entries ->
  cacheMatch q
    (List.filter (fun entry => negb (requestMatches q entry)) entries) = None.
Proof.
  intros Hv Hs. induction Hs as [| e entries He _ IH]; [reflexivity |].
  simpl. destruct (requestMatches q e) eqn:Hm; simpl; [exact IH |].
  now rewrite Hm.
Qed.

Lemma cacheMatch_filter_other q q' entries :
  plainVary -> noStar entries -> cacheKey q' <> cacheKey q ->
  cacheMatch q'
    (List.filter (fun entry => negb (requestMatches q entry)) entries)
  = cacheMatch q' entries.
Proof.
  intros Hv Hs Hk. induction Hs as [| e entries He _ IH]; [reflexivity |].
  simpl. destruct (requestMatches q e) eqn:Hm; simpl.
  - rewrite IH.
    assert (Hq : cacheKey q = cacheKey (fst e)).
    { unfold requestMatches in Hm. apply andb_true_iff in Hm.
      destruct Hm as [Hm _]. now apply jsstring_eqb_eq in Hm. }
    rewrite (requestMatches_other q' e); [reflexivity | congruence].
  - now rewrite IH.
Qed.

Lemma cacheMatch_put_same q q' r (entries : list (Request * Response)) :
  plainVary -> noStar entries -> varyHasStar r = false ->
  cacheKey q' = cacheKey q ->
  cacheMatch q' (cachePut q r entries) = Some r.
Proof.
  intros Hv Hs Hr Hk. unfold cachePut. rewrite cacheMatch_app.
  rewrite (cacheMatch_same_key q q' _ Hv); [| | exact Hk].
  - rewrite (cacheMatch_none_filter q entries Hv Hs). simpl.
    now rewrite (requestMatches_same q' (q, r) Hv Hr Hk).
  - unfold noStar in *. rewrite Forall_forall in *.
    intros e He. apply filter_In in He. now apply Hs.
Qed.

Lemma cacheMatch_put_other q q' r (entries : list (Request * Response)) :
  plainVary -> noStar entries -> cacheKey q' <> cacheKey q ->
  cacheMatch q' (cachePut q r entries) = cacheMatch q' entries.
Proof.
  intros Hv Hs Hk. unfold cachePut. rewrite cacheMatch_app.
  rewrite (cacheMatch_filter_other q q' entries Hv Hs Hk).
  destruct (cacheMatch q' entries); [reflexivity |]. simpl.
  now rewrite (requestMatches_other q' (q, r) Hk).
Qed.

Lemma noStar_put q r (entries : list (Request * Response)) :
  noStar entries -> varyHasStar r = false -> noStar (cachePut q r entries).
Proof.
  unfold noStar, cachePut. intros Hs Hr. apply Forall_app. split.
  - rewrite Forall_forall in *. intros e He.
    apply filter_In in He. now apply Hs.
  - now constructor.
Qed.

Lemma Forall_dropNth {A : Type} (P : A -> Prop) (i : nat) (l : list A) :
  Forall P l -> Forall P (dropNth i l).
Proof.
  intro H. revert i. induction H as [| x l Hx Hl IH]; intro i.
  - destruct i; constructor.
  - destruct i; simpl; [exact Hl | constructor; auto].
Qed.



(** A request that the cache answers, with no put pending for its key,
    is answered the same way after any event. *)
Lemma workerStep_keeps (ev : WorkerEvent) w q r :
  plainVary -> workerOk w ->
  cacheMatch q (cache w) = Some r -> noPendingFor q (pendingPuts w) ->
  workerOk (workerStep ev w) /\
  cacheMatch q (cache (workerStep ev w)) = Some r /\
  noPendingFor q (pendingPuts (workerStep ev w)).
Proof.
  intros Hv [Hc Hp] Hm Hn. destruct ev as [network q2 | i stored].
  - cbn [workerStep]. unfold fetchHandler.
    destruct (cacheMatch q2 (cache w)) as [r2 |] eqn:H2; cbn [fst snd].
    + repeat split; assumption.
    + destruct (network q2) as [fr |]; cbn [fst snd];
        [| repeat split; assumption].
      destruct (cachedOnTheFly (requestUrl q2) && negb (putRejects fr))
        eqn:Hfly; cbn [fst snd cache pendingPuts];
        [| repeat split; assumption].
      apply andb_true_iff in Hfly. destruct Hfly as [_ Hrej].
      apply negb_true_iff in Hrej.
      assert (Hk : cacheKey q2 <> cacheKey q).
      { intro Heq.
        rewrite (cacheMatch_same_key q q2 (cache w) Hv Hc Heq) in H2.
        congruence. }
      repeat split.
      * exact Hc.
      * apply Forall_app. split; [exact Hp |].
        constructor; [exact (putRejects_star fr Hrej) | constructor].
      * exact Hm.
      * apply Forall_app. split; [exact Hn |].
        constructor; [exact Hk | constructor].
  - cbn [workerStep].
    destruct (nth_error (pendingPuts w) i) as [[q1 r1] |] eqn:Hi;
      [| repeat split; assumption].
    apply nth_error_In in Hi.
    assert (Hr1 : varyHasStar r1 = false).
    { unfold noStar in Hp. rewrite Forall_forall in Hp. exact (Hp _ Hi). }
    assert (Hk1 : cacheKey q <> cacheKey q1).
    { unfold noPendingFor in Hn. rewrite Forall_forall in Hn.
      intro Heq. exact (Hn _ Hi (eq_sym Heq)). }
    cbn [cache pendingPuts]. repeat split.
    + destruct stored; [now apply noStar_put | exact Hc].
    + now apply Forall_dropNth.
    + destruct stored; [| exact Hm].
      now rewrite (cacheMatch_put_other q1 q r1 (cache w) Hv Hc Hk1).
    + now apply Forall_dropNth.
Qed.

Lemma workerRun_keeps (evs : list WorkerEvent) w q r :
  plainVary -> workerOk w ->
  cacheMatch q (cache w) = Some r -> noPendingFor q (pendingPuts w) ->
  workerOk (workerRun evs w) /\
  cacheMatch q (cache (workerRun evs w)) = Some r /\
  noPendingFor q (pendingPuts (workerRun evs w)).
Proof.
  intro Hv. revert w.
  induction evs as [| ev evs IH]; intros w Hok Hm Hn.
  { split; [exact Hok | split; [exact Hm | exact Hn]]. }
  destruct (workerStep_keeps ev w q r Hv Hok Hm Hn) as (Hok1 & Hm1 & Hn1).
  exact (IH (workerStep ev w) Hok1 Hm1 Hn1).
Qed.

Lemma fetchHandler_hit network q w r :
  cacheMatch q (cache w) = Some r ->
  fetchHandler network q w = (Some r, w, []).
Proof. intro H. unfold fetchHandler. now rewrite H. Qed.

(** The cache answers every request with the key of [q] as it answers [q],
    whatever happens later. *)
Lemma cached_stays_cached (evs : list WorkerEvent) network w q q' r :
  plainVary -> workerOk w ->
  cacheMatch q (cache w) = Some r -> noPendingFor q (pendingPuts w) ->
  cacheKey q' = cacheKey q ->
  fetchHandler network q' (workerRun evs w) = (Some r, workerRun evs w, []).
Proof.
  intros Hv Hok Hm Hn Hk.
  destruct (workerRun_keeps evs w q r Hv Hok Hm Hn) as ([Hc _] & Hm' & _).
  apply fetchHandler_hit.
  now rewrite (cacheMatch_same_key q q' _ Hv Hc Hk).
Qed.


Lemma cachePut_In q r (entries : list (Request * Response))
    (entry : Request * Response) :
  In entry (cachePut q r entries) -> In entry entries \/ entry = (q, r).
Proof.
  unfold cachePut. intro H. apply in_app_or in H. destruct H as [H | H].
  - left. apply filter_In in H. tauto.
  - right. destruct H as [H | []]. now symmetry.
Qed.

Lemma In_dropNth {A : Type} (i : nat) (l : list A) (x : A) :
  In x (dropNth i l) -> In x l.
Proof.
  revert i. induction l as [| y l IH]; intros i H.
  - destruct i; exact H.
  - destruct i; simpl in *; [now right |].
    destruct H as [H | H]; [now left | right; eauto].
Qed.

Lemma workerRun_provenance (evs all : list WorkerEvent)
    (base : list (Request * Response)) w :
  incl evs all ->
  (forall entry, In entry (cache w) ->
                 In entry base \/ fetchedOnTheFly all entry) ->
  (forall entry, In entry (pendingPuts w) -> fetchedOnTheFly all entry) ->
  forall entry, In entry (cache (workerRun evs w)) ->
                In entry base \/ fetchedOnTheFly all entry.
Proof.
  revert w. induction evs as [| ev evs IH]; intros w Hincl Hc Hp.
  - exact Hc.
  - cbn [workerRun List.fold_left].
    apply (IH (workerStep ev w)).
    + intros x Hx. apply Hincl. now right.
    + destruct ev as [network q | i stored]; cbn [workerStep].
      * unfold fetchHandler.
        destruct (cacheMatch q (cache w)); cbn [fst snd]; [exact Hc |].
        destruct (network q); cbn [fst snd]; [| exact Hc].
        destruct (cachedOnTheFly (requestUrl q) && negb (putRejects r));
          exact Hc.
      * destruct (nth_error (pendingPuts w) i) as [[q1 r1] |] eqn:Hi;
          [| exact Hc].
        cbn [cache]. destruct stored; [| exact Hc].
        intros entry He. apply cachePut_In in He.
        destruct He as [He | ->]; [now apply Hc |].
        right. apply Hp. exact (nth_error_In _ _ Hi).
    + destruct ev as [network q | i stored]; cbn [workerStep].
      * unfold fetchHandler.
        destruct (cacheMatch q (cache w)); cbn [fst snd]; [exact Hp |].
        destruct (network q) as [fr |] eqn:Hnet; cbn [fst snd]; [| exact Hp].
        destruct (cachedOnTheFly (requestUrl q) && negb (putRejects fr))
          eqn:Hfly; [| exact Hp].
        cbn [pendingPuts]. intros entry He. apply in_app_or in He.
        destruct He as [He | [<- | []]]; [now apply Hp |].
        apply andb_true_iff in Hfly. destruct Hfly as [Hf Hr].
        apply negb_true_iff in Hr.
        split; [exact Hf | split; [exact Hr |]].
        exists network. split; [| exact Hnet].
        apply Hincl. now left.
      * destruct (nth_error (pendingPuts w) i) as [[q1 r1] |]; [| exact Hp].
        cbn [pendingPuts]. intros entry He. apply Hp.
        exact (In_dropNth _ _ _ He).
Qed.

(** X18: the fetch handler only ever adds to the cache what it fetched
    for a request whose URL contains [esm.sh] or [googlefonts], and never a
    response of status 206 or with [Vary: *]: after any events, every entry
    of the cache was in it before or is such a request with the response
    the network gave it. *)
Theorem only_marked_fetches_stored (evs : list WorkerEvent) w
    (entry : Request * Response) :
  pendingPuts w = [] ->
  In entry (cache (workerRun evs w)) ->
  In entry (cache w) \/ fetchedOnTheFly evs entry.
Proof.
  intros Hp He.
  apply (workerRun_provenance evs evs (cache w) w).
  - apply incl_refl.
  - intros x Hx. now left.
  - rewrite Hp. intros x [].
  - exact He.
Qed.

Lemma fetchAll_entries network (requests : list Request) entries :
  fetchAll network requests = Some entries ->
  List.map fst entries = requests /\
  Forall (fun e => network (fst e) = Some (snd e) /\
                   addAllAccepts (snd e) = true) entries.
Proof.
  revert entries. induction requests as [| q requests IH]; intros entries H.
  - injection H as <-. split; [reflexivity | constructor].
  - simpl in H. destruct (network q) as [r |] eqn:Hq; [| discriminate].
    destruct (addAllAccepts r) eqn:Hr; [| discriminate].
    destruct (fetchAll network requests) as [es |]; [| discriminate].
    injection H as <-. destruct (IH es eq_refl) as [Hk Hall].
    split; [simpl; now rewrite Hk | constructor; [split |]; assumption].
Qed.

Lemma addAllAccepts_star r : addAllAccepts r = true -> varyHasStar r = false.
Proof.
  unfold addAllAccepts. intro H. apply andb_true_iff in H.
  destruct H as [_ H]. apply negb_true_iff in H.
  now apply putRejects_star.
Qed.

Lemma batchPut_keeps entries added (c c' : Cache) q r :
  plainVary -> noStar entries -> noStar added -> noStar c ->
  batchPut entries added c = Some c' ->
  cacheMatch q added <> None ->
  cacheMatch q c = Some r ->
  cacheMatch q c' = Some r /\ noStar c'.
Proof.
  intros Hv Hs. revert added c.
  induction Hs as [| [q1 r1] entries Hr1 _ IH]; intros added c Ha Hc Hb Hin Hm.
  - injection Hb as <-. now split.
  - cbn [batchPut] in Hb. simpl in Hr1.
    destruct (cacheMatch q1 added) eqn:H1; [discriminate |].
    assert (Hk : cacheKey q <> cacheKey q1).
    { intro Heq. apply Hin.
      now rewrite (cacheMatch_same_key q1 q added Hv Ha Heq). }
    apply (IH (added ++ [(q1, r1)]) (cachePut q1 r1 c)).
    + apply Forall_app. split; [exact Ha | now constructor].
    + now apply noStar_put.
    + exact Hb.
    + rewrite cacheMatch_app.
      destruct (cacheMatch q added); [discriminate | now contradiction Hin].
    + now rewrite (cacheMatch_put_other q1 q r1 c Hv Hc Hk).
Qed.

Lemma batchPut_noStar entries added (c c' : Cache) :
  noStar entries -> noStar c ->
  batchPut entries added c = Some c' -> noStar c'.
Proof.
  intro Hs. revert added c.
  induction Hs as [| [q1 r1] entries Hr1 _ IH]; intros added c Hc Hb.
  - now injection Hb as <-.
  - cbn [batchPut] in Hb. destruct (cacheMatch q1 added); [discriminate |].
    apply (IH _ _ (noStar_put q1 r1 c Hc Hr1) Hb).
Qed.

Lemma batchPut_has entries added (c c' : Cache) q0 r0 q :
  plainVary -> noStar entries -> noStar added -> noStar c ->
  batchPut entries added c = Some c' ->
  In (q0, r0) entries -> cacheKey q = cacheKey q0 ->
  cacheMatch q c' = Some r0.
Proof.
  intros Hv Hs. revert added c.
  induction Hs as [| [q1 r1] entries Hr1 Hs IH]; intros added c Ha Hc Hb Hin Hk.
  - destruct Hin.
  - cbn [batchPut] in Hb. simpl in Hr1.
    destruct (cacheMatch q1 added) eqn:H1; [discriminate |].
    assert (Ha' : noStar (added ++ [(q1, r1)]))
      by (apply Forall_app; split; [exact Ha | now constructor]).
    destruct Hin as [Heq | Hin].
    + injection Heq as -> ->.
      apply (batchPut_keeps entries (added ++ [(q0, r0)]) (cachePut q0 r0 c)
               c' q r0 Hv Hs Ha' (noStar_put q0 r0 c Hc Hr1) Hb).
      * rewrite cacheMatch_app. destruct (cacheMatch q added); [discriminate |].
        simpl. now rewrite (requestMatches_same q (q0, r0) Hv Hr1 Hk).
      * now apply cacheMatch_put_same.
    + exact (IH _ _ Ha' (noStar_put q1 r1 c Hc Hr1) Hb Hin Hk).
Qed.

(** X19: after an installation that succeeded, with plain [Vary] headers,
    every request for an entry of [ASSETS_TO_CACHE] (a request with the URL,
    fragment apart, of the request [cache.addAll] made for the entry) is
    answered from the cache, with the response the installation fetched for
    the entry, an ok one, and without the network being asked, also when the
    network is down and whatever happened since the installation. *)
Theorem installed_assets_served_offline network (c c' : Cache)
    (asset : jsstring) :
  plainVary ->
  noStar c ->
  installHandler network c = Some c' ->
  In asset ASSETS_TO_CACHE ->
  exists r : Response,
    network (newRequest asset) = Some r /\
    addAllAccepts r = true /\
    forall (later : list WorkerEvent) (q : Request)
           (network' : Request -> option Response),
      cacheKey q = cacheKey (newRequest asset) ->
      let w' := workerRun later {| cache := c'; pendingPuts := [] |} in
      fetchHandler network' q w' = (Some r, w', []).
Proof.
  unfold installHandler. intros Hv Hc Hinst Hin.
  destruct (fetchAll network (List.map newRequest ASSETS_TO_CACHE))
    as [entries |] eqn:Hf; [| discriminate].
  destruct (fetchAll_entries _ _ _ Hf) as [Hkeys Hall].
  assert (Hq : In (newRequest asset) (List.map fst entries))
    by (rewrite Hkeys; now apply in_map).
  apply in_map_iff in Hq. destruct Hq as ([q0 r0] & Heq & Hine).
  simpl in Heq. subst q0.
  rewrite Forall_forall in Hall.
  destruct (Hall _ Hine) as [Hnet Hacc]. simpl in Hnet, Hacc.
  assert (Hs : noStar entries).
  { unfold noStar. rewrite Forall_forall. intros e He.
    apply addAllAccepts_star. now apply Hall. }
  exists r0. split; [exact Hnet | split; [exact Hacc |]].
  intros later q network' Hk.
  apply (cached_stays_cached later network'
           {| cache := c'; pendingPuts := [] |} (newRequest asset) q r0 Hv).
  - split; [exact (batchPut_noStar entries [] c c' Hs Hc Hinst) | constructor].
  - apply (batchPut_has entries [] c c' (newRequest asset) r0
             (newRequest asset) Hv Hs (Forall_nil _) Hc Hinst Hine eq_refl).
  - constructor.
  - exact Hk.
Qed.

End ServiceWorker.

Lemma sampleBrowser_plainVary : plainVary.
Proof. intros q c r Hr. simpl in *. now rewrite Hr. Qed.


(** What the cache holds after a module of esm.sh was fetched and stored. *)
Lemma only_marked_fetches_stored_witness :
  let q := js "https://esm.sh/react@18" in
  let evs := [Fetch echoNetwork q; PutSettles 0 true] in
  let entry := (q, (200%N, false, js "response to https://esm.sh/react@18")) in
  In entry (cache emptyWorker) \/ fetchedOnTheFly evs entry.
Proof.
  intros q evs entry.
  apply (only_marked_fetches_stored evs emptyWorker entry).
  - reflexivity.
  - left. reflexivity.
Defined.

(** The page of the application, installed on line and opened off line. *)
Lemma installed_assets_served_offline_witness :
  exists (c' : Cache) (r : Response),
    installHandler echoNetwork [] = Some c' /\
    fetchHandler noNetwork (js "https://ezen.example/index.html#start")
      {| cache := c'; pendingPuts := [] |}
    = (Some r, {| cache := c'; pendingPuts := [] |}, []).
Proof.
  destruct (installHandler echoNetwork []) as [c' |] eqn:Hinst;
    [| discriminate Hinst].
  destruct (installed_assets_served_offline echoNetwork [] c'
              (js "/index.html") sampleBrowser_plainVary (Forall_nil _) Hinst)
    as (r & _ & _ & Hr).
  - right. left. reflexivity.
  - exists c', r. split; [reflexivity |].
    exact (Hr [] (js "https://ezen.example/index.html#start") noNetwork
              eq_refl).
Defined.

(** ** Headlines without a brace pair *)

Local Open Scope N_scope.

Lemma lazyDotsThenClose_none (s : jsstring) :
  ~ In RBRACE s -> lazyDotsThenClose s = None.
Proof.
  induction s as [| c s IH]; intro Hno; simpl; [reflexivity |].
  assert (Hc : (c =? RBRACE) = false).
  { apply N.eqb_neq. intro Heq. apply Hno. left. now symmetry. }
  rewrite Hc. destruct (isLineTerminator c); [reflexivity |].
  rewrite IH; [reflexivity |]. intro Hin. apply Hno. now right.
Qed.

Lemma splitLoop_unclosed (s pending : jsstring) :
  ~ In RBRACE s -> splitLoop O pending s = [rev pending ++ s].
Proof.
  revert pending. induction s as [| c s IH]; intros pending Hno.
  - simpl. now rewrite app_nil_r.
  - assert (Hs : ~ In RBRACE s) by (intro Hin; apply Hno; now right).
    cbn [splitLoop]. unfold matchHere.
    rewrite (lazyDotsThenClose_none s Hs).
    assert (Hm : (if c =? LBRACE then None else None) = @None jsstring)
      by (destruct (c =? LBRACE); reflexivity).
    rewrite Hm, (IH (c :: pending) Hs). cbn [rev].
    now rewrite <- app_assoc.
Qed.

Lemma renderPart_unclosed (color part : jsstring) :
  ~ In RBRACE part -> renderPart color part = Plain part.
Proof.
  intro Hno. unfold renderPart, endsWithRBrace.
  destruct (rev part) as [| d r] eqn:Hr.
  - now rewrite andb_false_r.
  - assert (Hd : (d =? RBRACE) = false).
    { apply N.eqb_neq. intro Heq. apply Hno. apply in_rev.
      rewrite Hr. left. exact Heq. }
    rewrite Hd. now rewrite andb_false_r.
Qed.

(** X4: a headline that lacks one of the two braces is rendered as it
    was typed: one plain segment holding the whole headline, with whatever
    unmatched braces it has. *)
Theorem renderHeadline_without_pair (p : NewsPost) (text : jsstring) :
  ~ In LBRACE text \/ ~ In RBRACE text ->
  renderHeadline p text = [Plain text].
Proof.
  unfold renderHeadline, splitOnBraces. intros [Hno | Hno].
  - rewrite <- (app_nil_r text) at 1.
    rewrite (splitLoop_plain text [] [] Hno). cbn [splitLoop List.map].
    rewrite app_nil_r, rev_involutive.
    f_equal. exact (renderPart_plain (highlightColor p) text Hno).
  - rewrite (splitLoop_unclosed text [] Hno). cbn [rev app List.map].
    f_equal. exact (renderPart_unclosed (highlightColor p) text Hno).
Qed.

(** A headline with an opening brace that is never closed. *)
Lemma renderHeadline_without_pair_witness :
  renderHeadline initialPost (js "Novo {gerador de posts")
  = [Plain (js "Novo {gerador de posts")].
Proof.
  apply renderHeadline_without_pair. right.
  vm_compute. intuition discriminate.
Defined.

Local Close Scope N_scope.
